(** * Barretenberg: SMT witness dump, circuit tests, bytecode lookup binding

    A shallow embedding of three pieces of the barretenberg C++ sources:

    - [smt_verification/util/smt_util.hpp]: [default_model] and
      [default_model_single], which dump a solver model to a text file;
    - [smt_verification/circuit/circuit.test.cpp]: the three tests around
      the circuit for [(2a)/(3b)];
    - [vm2/generated/relations/lookups_bc_decomposition.hpp]: the
      generated settings class
      [lookup_bytecode_to_read_unary_lookup_settings]. *)

From Stdlib Require Import ZArith Zdivisibility Lia.
From stdpp Require Import base option list gmap strings pretty.

(** ** Strings as the streams write them *)

Module Str.

(** What [operator<<] called on a sequence of pieces leaves in the stream. *)
Fixpoint cat (l : list string) : string :=
  match l with
  | [] => ""
  | s :: l' => s +:+ cat l'
  end.

(** [std::endl] on a stream opened with [std::ios::binary]: one LF. *)
Definition endl : string := String (Ascii.ascii_of_nat 10) "".

End Str.

(** ** A state-and-failure monad for the imperative code

    [None] stands for an out-of-range subscript on a [std::vector], which
    the C++ code leaves undefined. *)

Module Exec.
Section Monad.
Context {St : Type}.

Definition M (A : Type) : Type := St → option (A * St).

Definition ret {A} (a : A) : M A := λ st, Some (a, st).

Definition bind {A B} (m : M A) (k : A → M B) : M B :=
  λ st, match m st with
        | Some (a, st') => k a st'
        | None => None
        end.

Definition fail {A} : M A := λ _, None.

(** [v[i]] on a vector. *)
Definition at_ {A} (v : list A) (i : nat) : M A :=
  match v !! i with
  | Some x => ret x
  | None => fail
  end.

(** [for (i = start; i < start + count; i++) body], with the local
    variables the body updates threaded as [acc]. *)
Fixpoint for_ {Acc} (start count : nat) (body : nat → Acc → M Acc)
    (acc : Acc) : M Acc :=
  match count with
  | 0 => ret acc
  | S count' => bind (body start acc) (for_ (S start) count' body)
  end.

(** [for (auto& x : xs) body]. *)
Fixpoint for_each {A} (xs : list A) (body : A → M unit) : M unit :=
  match xs with
  | [] => ret tt
  | x :: xs' => bind (body x) (λ _, for_each xs' body)
  end.
End Monad.

(** The monad is used through stdpp's [x ← m; k] and [m;; k]. *)
Global Instance M_ret {St} : MRet (@M St) := @ret St.
Global Instance M_bind {St} : MBind (@M St) := λ A B k m, bind m k.
End Exec.

(** ** [smt_util.hpp] *)

Module SmtUtil.
Import Exec.

(** What the dump functions see and change: the files on disk, the calls
    of [info] made so far, each with its arguments in order, and the file
    names that can be opened for writing (the directory exists, the name
    is not empty, the permissions allow it). *)
Record World := mkWorld {
  files : gmap string string;
  info_log : list (list string);
  writable : string → bool
}.

(** A [std::fstream] after [open]: the name it was opened on and whether
    the open succeeded. The code never tests the stream. *)
Record fstream := mkFstream {
  path : string;
  is_open : bool
}.

(** [myfile.open(fname, out | trunc | binary)]: when the file can be
    opened it exists and is empty afterwards; otherwise nothing changes
    and the stream is left closed. *)
Definition fstream_open (fname : string) : M (St := World) fstream :=
  λ w, if writable w fname
       then Some (mkFstream fname true,
                  mkWorld (<[fname := ""]> (files w)) (info_log w) (writable w))
       else Some (mkFstream fname false, w).

(** [myfile << a << b << ...]: the pieces are appended in order; on a
    stream whose open failed nothing is written. *)
Definition fstream_put (myfile : fstream) (pieces : list string)
    : M (St := World) unit :=
  λ w, if is_open myfile
       then Some (tt, mkWorld
                        (<[path myfile :=
                             default "" (files w !! path myfile)
                             +:+ Str.cat pieces]> (files w))
                        (info_log w) (writable w))
       else Some (tt, w).

(** [info(args...)]. *)
Definition info (args : list string) : M (St := World) unit :=
  λ w, Some (tt, mkWorld (files w) (info_log w ++ [args]) (writable w)).

(** [mmap[key]] on a [std::unordered_map<std::string, std::string>]: the
    stored value, or the empty string the subscript inserts for a key
    that is missing (which every later read of that key returns too). *)
Definition subscript (mmap : gmap string string) (key : string) : string :=
  default "" (mmap !! key).

(** [vterms.insert({key, t})]: an existing entry is kept. *)
Definition insert_new {V} (key : string) (v : V) (m : gmap string V)
    : gmap string V :=
  match m !! key with
  | Some _ => m
  | None => <[key := v]> m
  end.

Section Dump.
(** [cvc5::Term] and [Term::toString]. *)
Context {Term : Type} (toString : Term → string).

(** The members of [smt_circuit::Circuit<FF>] the dump reads
    ([circuit.hpp] declares them). [get_num_real_vars] only sizes a
    [reserve] and is left out. Indices are natural numbers: the [uint32_t]
    counters of the loops do not wrap for fewer than 2^32 variables. *)
Record Circuit := mkCircuit {
  get_num_vars : nat;
  symbolic_vars : list Term;
  real_variable_index : list nat;
  by_name : string → Term            (* [c[name]] *)
}.

(** The two overloads of [Solver::model] ([solver.hpp] declares them):
    the values of a vector of terms, keyed by the printed term, and the
    values of named terms, keyed by the given names. *)
Record Solver := mkSolver {
  model : list Term → gmap string string;
  model_named : gmap string Term → gmap string string
}.

(** Lines 13-14: the body of the first loop. *)
Definition push_canonical (c1 c2 : Circuit) (i : nat)
    (acc : list Term * list Term) : M (St := World) (list Term * list Term) :=
  let '(vterms1, vterms2) := acc in
  r1 ← at_ (real_variable_index c1) i;
  t1 ← at_ (symbolic_vars c1) r1;
  r2 ← at_ (real_variable_index c2) i;
  t2 ← at_ (symbolic_vars c2) r2;
  mret (vterms1 ++ [t1], vterms2 ++ [t2]).

(** Lines 12-15: the terms of the canonical variables of both circuits. *)
Definition collect_canonical (c1 c2 : Circuit)
    : M (St := World) (list Term * list Term) :=
  for_ 0 (get_num_vars c1) (push_canonical c1 c2) ([], []).

(** Lines 24-33: what one iteration of the second loop writes. *)
Definition put_pair_line (myfile : fstream) (c1 : Circuit)
    (vterms1 vterms2 : list Term) (mmap1 mmap2 : gmap string string)
    (i : nat) : M (St := World) unit :=
  t1 ← at_ vterms1 i;
  t2 ← at_ vterms2 i;
  let vname1 := toString t1 in
  let vname2 := toString t2 in
  r ← at_ (real_variable_index c1) i;
  if decide (r = i) then
    fstream_put myfile ["{"; subscript mmap1 vname1; ", ";
                        subscript mmap2 vname2; "}"];;
    fstream_put myfile [",           // "; vname1; ", "; vname2; Str.endl]
  else
    fstream_put myfile ["{"; subscript mmap1 vname1;
                        ", " +:+ subscript mmap2 vname2; "}"];;
    fstream_put myfile [",           // "; vname1; " ,"; vname2; " -> ";
                        pretty r; Str.endl].

(** Lines 38-42: the map from report names to terms. *)
Definition named_terms_pair (special : list string) (c1 c2 : Circuit)
    : gmap string Term :=
  fold_left (λ vterms vname,
               insert_new (vname +:+ "_2") (by_name c2 vname)
                 (insert_new (vname +:+ "_1") (by_name c1 vname) vterms))
            special ∅.

(** Lines 44-47: the named variables reported through [info]. *)
Definition report_special_pair (special : list string) (c1 c2 : Circuit)
    (s : Solver) : M (St := World) unit :=
  let mmap := model_named s (named_terms_pair special c1 c2) in
  for_each special
    (λ vname, info [vname; "_1, "; vname; "_2 = ";
                    subscript mmap (vname +:+ "_1"); ", ";
                    subscript mmap (vname +:+ "_2")]).

Definition default_model (special : list string) (c1 c2 : Circuit)
    (s : Solver) (fname : string) : M (St := World) unit :=
  '(vterms1, vterms2) ← collect_canonical c1 c2;
  let mmap1 := model s vterms1 in
  let mmap2 := model s vterms2 in
  myfile ← fstream_open fname;
  fstream_put myfile ["w12 = {"; Str.endl];;
  for_ 0 (get_num_vars c1)
    (λ i _, put_pair_line myfile c1 vterms1 vterms2 mmap1 mmap2 i) tt;;
  fstream_put myfile ["};"];;
  report_special_pair special c1 c2 s.

(** Line 56: the body of the first loop. *)
Definition push_var (c : Circuit) (i : nat) (vterms : list Term)
    : M (St := World) (list Term) :=
  t ← at_ (symbolic_vars c) i; mret (vterms ++ [t]).

(** Lines 55-57. *)
Definition collect_all (c : Circuit) : M (St := World) (list Term) :=
  for_ 0 (get_num_vars c) (push_var c) [].

(** Lines 65-70. *)
Definition put_single_line (myfile : fstream) (c : Circuit)
    (vterms : list Term) (mmap : gmap string string) (i : nat)
    : M (St := World) unit :=
  t ← at_ vterms i;
  let vname := toString t in
  r ← at_ (real_variable_index c) i;
  if decide (r = i) then
    fstream_put myfile [subscript mmap vname; ",              // "; vname;
                        Str.endl]
  else
    fstream_put myfile [subscript mmap vname; ",              // "; vname;
                        " -> "; pretty r; Str.endl].

(** Lines 75-78. *)
Definition named_terms_single (special : list string) (c : Circuit)
    : gmap string Term :=
  fold_left (λ vterms1 vname, insert_new vname (by_name c vname) vterms1)
            special ∅.

(** Lines 80-83. *)
Definition report_special_single (special : list string) (c : Circuit)
    (s : Solver) : M (St := World) unit :=
  let mmap1 := model_named s (named_terms_single special c) in
  for_each special
    (λ vname, info [vname; " = "; subscript mmap1 vname]).

Definition default_model_single (special : list string) (c : Circuit)
    (s : Solver) (fname : string) : M (St := World) unit :=
  vterms ← collect_all c;
  let mmap := model s vterms in
  myfile ← fstream_open fname;
  fstream_put myfile ["w = {"; Str.endl];;
  for_ 0 (get_num_vars c)
    (λ i _, put_single_line myfile c vterms mmap i) tt;;
  fstream_put myfile ["};"];;
  report_special_single special c s.

(** *** The listing, line by line *)

(** [symbolic_vars[real_variable_index[i]]]. *)
Definition canonical_term (c : Circuit) (i : nat) : option Term :=
  r ← real_variable_index c !! i; symbolic_vars c !! r.

(** The text one pass of the loop of [default_model] leaves in the
    file, for index [i] aliased to [r], with [t1] and [t2] the terms
    collected for [i]. *)
Definition pair_line (mmap1 mmap2 : gmap string string) (i r : nat)
    (t1 t2 : Term) : string :=
  Str.cat (["{"; subscript mmap1 (toString t1); ", ";
            subscript mmap2 (toString t2); "}"; ",           // ";
            toString t1]
           ++ (if decide (r = i)
               then [", "; toString t2]
               else [" ,"; toString t2; " -> "; pretty r])
           ++ [Str.endl]).

(** The same for [default_model_single]. *)
Definition single_line (mmap : gmap string string) (i r : nat) (t : Term)
    : string :=
  Str.cat ([subscript mmap (toString t); ",              // "; toString t]
           ++ (if decide (r = i) then [] else [" -> "; pretty r])
           ++ [Str.endl]).

Definition pair_line_at (c1 : Circuit) (vterms1 vterms2 : list Term)
    (mmap1 mmap2 : gmap string string) (i : nat) : option string :=
  t1 ← vterms1 !! i; t2 ← vterms2 !! i; r ← real_variable_index c1 !! i;
  Some (pair_line mmap1 mmap2 i r t1 t2).

Definition single_line_at (c : Circuit) (vterms : list Term)
    (mmap : gmap string string) (i : nat) : option string :=
  t ← vterms !! i; r ← real_variable_index c !! i;
  Some (single_line mmap i r t).

End Dump.

(** Concrete data to run the dump on: three variables, the second an
    alias of the first, a solver that maps the term [t] to [val_t], and a
    world without files in which every file can be opened. *)
Module Sample.
Definition circuit : Circuit (Term := string) :=
  mkCircuit 3 ["x"; "y"; "z"] [0; 0; 2] (λ name, name).

Definition solver : Solver (Term := string) :=
  mkSolver (λ vterms, list_to_map ((λ t, (t, "val_" +:+ t)) <$> vterms))
           (λ vterms, (λ t, "val_" +:+ t) <$> vterms).

Definition world : World := mkWorld ∅ [] (λ _, true).

(** The same world, except that the empty file name cannot be opened. *)
Definition strict_world : World :=
  mkWorld ∅ [] (λ fname, bool_decide (fname ≠ "")).

(** A solver that answers like [solver] about three terms at a time and
    about named terms, and has no value for any other vector of terms. *)
Definition partial_solver : Solver (Term := string) :=
  mkSolver (λ vterms, if decide (length vterms = 3)
                      then model solver vterms else ∅)
           (model_named solver).
End Sample.
End SmtUtil.


(** ** Field elements

    The scalar field [FF] of the proving system, as residues modulo [p]. *)

Module FF.
Section Modulus.
Variable p : Z.

Definition of_Z (z : Z) : Z := (z mod p)%Z.
Definition zero : Z := of_Z 0.
Definition one : Z := of_Z 1.
Definition add (a b : Z) : Z := ((a + b) mod p)%Z.
Definition sub (a b : Z) : Z := ((a - b) mod p)%Z.
Definition mul (a b : Z) : Z := ((a * b) mod p)%Z.

(** [a == b] on field elements. *)
Definition eqb (a b : Z) : bool := bool_decide ((a mod p)%Z = (b mod p)%Z).

End Modulus.
End FF.

(** ** [lookups_bc_decomposition.hpp] *)

Module LookupsBcDecomposition.

(** The members of the [Column] enum of [columns.hpp] that this file
    names. *)
Inductive Column :=
| bc_decomposition_sel
| precomputed_sel_unary
| lookup_bytecode_to_read_unary_counts
| lookup_bytecode_to_read_unary_inv
| bc_decomposition_bytes_to_read
| bc_decomposition_bytes_to_read_unary
| precomputed_clk
| precomputed_as_unary.

#[global] Instance Column_eq_dec : EqDecision Column.
Proof. solve_decision. Defined.

(** [AllEntities]: one entity per column; [in.col] is [in_ col]. *)
Definition AllEntities (T : Type) : Type := Column → T.

(** A reference to the member [col] of [in_], as [std::forward_as_tuple]
    stores it: which member it designates, and what reading through it
    gives. *)
Definition Ref (T : Type) : Type := (Column * T)%type.
Definition ref {T} (in_ : AllEntities T) (col : Column) : Ref T := (col, in_ col).

(** The static data members a settings class hands to the generic
    lookup templates. *)
Record LookupSettings := mkLookupSettings {
  READ_TERMS : nat;
  WRITE_TERMS : nat;
  READ_TERM_TYPES : list nat;
  WRITE_TERM_TYPES : list nat;
  LOOKUP_TUPLE_SIZE : nat;
  INVERSE_EXISTS_POLYNOMIAL_DEGREE : nat;
  READ_TERM_DEGREE : nat;
  WRITE_TERM_DEGREE : nat;
  SRC_SELECTOR : Column;
  DST_SELECTOR : Column;
  COUNTS : Column;
  INVERSES : Column;
  SRC_COLUMNS : list Column;
  DST_COLUMNS : list Column
}.

(** Lines 17-35. *)
Definition lookup_bytecode_to_read_unary_lookup_settings : LookupSettings :=
  {| READ_TERMS := 1;
     WRITE_TERMS := 1;
     READ_TERM_TYPES := [0];
     WRITE_TERM_TYPES := [0];
     LOOKUP_TUPLE_SIZE := 2;
     INVERSE_EXISTS_POLYNOMIAL_DEGREE := 4;
     READ_TERM_DEGREE := 0;
     WRITE_TERM_DEGREE := 0;
     SRC_SELECTOR := bc_decomposition_sel;
     DST_SELECTOR := precomputed_sel_unary;
     COUNTS := lookup_bytecode_to_read_unary_counts;
     INVERSES := lookup_bytecode_to_read_unary_inv;
     SRC_COLUMNS := [bc_decomposition_bytes_to_read;
                     bc_decomposition_bytes_to_read_unary];
     DST_COLUMNS := [precomputed_clk; precomputed_as_unary] |}.

Section Methods.
Variable p : Z.

(** Lines 37-40. *)
Definition inverse_polynomial_is_computed_at_row (in_ : AllEntities Z) : bool :=
  FF.eqb p (in_ bc_decomposition_sel) (FF.one p)
  || FF.eqb p (in_ precomputed_sel_unary) (FF.one p).

(** Lines 42-49; [View] of an entity is its value. *)
Definition compute_inverse_exists (in_ : AllEntities Z) : Z :=
  let is_operation := in_ bc_decomposition_sel in
  let is_table_entry := in_ precomputed_sel_unary in
  FF.sub p (FF.add p is_operation is_table_entry)
           (FF.mul p is_operation is_table_entry).

End Methods.

(** Lines 61-71. *)
Definition get_entities {T} (in_ : AllEntities T) : list (Ref T) :=
  [ ref in_ lookup_bytecode_to_read_unary_inv;
    ref in_ lookup_bytecode_to_read_unary_counts;
    ref in_ bc_decomposition_sel;
    ref in_ precomputed_sel_unary;
    ref in_ bc_decomposition_bytes_to_read;
    ref in_ bc_decomposition_bytes_to_read_unary;
    ref in_ precomputed_clk;
    ref in_ precomputed_as_unary ].

(** Lines 51-54. *)
Definition get_const_entities {T} (in_ : AllEntities T) : list (Ref T) :=
  get_entities in_.

(** Lines 56-59. *)
Definition get_nonconst_entities {T} (in_ : AllEntities T) : list (Ref T) :=
  get_entities in_.

(** A row selected by [bc_decomposition_sel] and not by
    [precomputed_sel_unary]. *)
Module Sample.
Definition reading_row : AllEntities Z :=
  λ col, match col with
         | bc_decomposition_sel => 1
         | bc_decomposition_bytes_to_read => 3
         | bc_decomposition_bytes_to_read_unary => 7
         | _ => 0
         end%Z.
End Sample.

End LookupsBcDecomposition.

(** ** [circuit.test.cpp]

    The tests drive the solver wrapper, the term algebra and the circuit
    translation ([solver.hpp], [terms/ffterm.hpp], [circuit.hpp]), none of
    which is among the sources. They are modelled here from the glossary: a
    witness is "the assignment of concrete field values to circuit variables
    satisfying all constraints", and the solver decides whether one
    exists. *)

Module CircuitTest.
Import Exec.

(** Modelled from the spec: [smt_terms::FFTerm] ([terms/ffterm.hpp] is
    missing), a symbolic term over the field, with the operators the tests
    use: variables, constants, [+] and [*]. *)
Inductive FFTerm :=
| Var (name : string)
| Const (k : Z)
| Add (a b : FFTerm)
| Mul (a b : FFTerm).

(** Modelled from the spec: the constraints of [FFTerm::operator==] and
    [FFTerm::operator!=] ([terms/ffterm.hpp] is missing), which the tests
    call as statements, [a == b;] and [a != b;]. *)
Inductive Assertion :=
| Equal (a b : FFTerm)
| NotEqual (a b : FFTerm).

(** Modelled from the spec: an [smt_solver::Solver] session ([solver.hpp]
    is missing): the field modulus, the constraints asserted so far, and
    the number of auxiliary variables created. *)
Record SmtSolver := mkSmtSolver {
  modulus : Z;
  assertions : list Assertion;
  fresh : nat
}.

(** [smt_solver::Solver s(circuit_info.modulus, ...)]. *)
Definition new_solver (p : Z) : SmtSolver := mkSmtSolver p [] 0.

(** Modelled from the spec: asserting a constraint in the solver
    ([solver.hpp] is missing) adds it to the constraints a witness has to
    satisfy. *)
Definition assert_ (a : Assertion) : M (St := SmtSolver) unit :=
  λ s, Some (tt, mkSmtSolver (modulus s) (assertions s ++ [a]) (fresh s)).

(** Modelled from the spec: the constraints of a quotient
    ([terms/ffterm.hpp] is missing). "(2a)/(3b)" is read as the arithmetic
    quotient: [res] is the quotient of [a] by [b] when [b] is not zero and
    [res * b] is [a]. *)
Definition quotient_of (res a b : FFTerm) : M (St := SmtSolver) unit :=
  assert_ (NotEqual b (Const 0));;
  assert_ (Equal (Mul res b) a).

(** Modelled from the spec: [FFTerm::operator/] ([terms/ffterm.hpp] is
    missing): an auxiliary variable constrained to be the quotient. *)
Definition div (a b : FFTerm) : M (St := SmtSolver) FFTerm :=
  λ s, let res := Var ("div_" +:+ pretty (fresh s)) in
       (quotient_of res a b;; mret res)
         (mkSmtSolver (modulus s) (assertions s) (S (fresh s))).

(** Modelled from the spec: the circuit builder, the export of the circuit
    and its translation into solver constraints by the constructor of
    [smt_circuit::Circuit] ([circuit.hpp] is missing). "The SMT encoding of
    the circuit" of [c = num / den], with [a], [b] and [c] the variables
    named so by [set_variable_name], is that [c] is the quotient of [num]
    by [den]. *)
Definition make_Circuit (num den : FFTerm) : M (St := SmtSolver) unit :=
  quotient_of (Var "c") num den.

(** Modelled from the spec: the value of a term under an assignment of
    field values to the variables ([terms/ffterm.hpp] is missing). *)
Fixpoint eval (p : Z) (env : string → Z) (t : FFTerm) : Z :=
  match t with
  | Var name => FF.of_Z p (env name)
  | Const k => FF.of_Z p k
  | Add a b => FF.add p (eval p env a) (eval p env b)
  | Mul a b => FF.mul p (eval p env a) (eval p env b)
  end.

(** The same value before reduction modulo [p], as an integer polynomial
    in the variables. *)
Fixpoint evalZ (env : string → Z) (t : FFTerm) : Z :=
  match t with
  | Var name => env name
  | Const k => k
  | Add a b => (evalZ env a + evalZ env b)%Z
  | Mul a b => (evalZ env a * evalZ env b)%Z
  end.

(** Modelled from the spec: when an assignment satisfies a constraint
    ([solver.hpp] is missing). *)
Definition holds (p : Z) (env : string → Z) (a : Assertion) : Prop :=
  match a with
  | Equal a b => eval p env a = eval p env b
  | NotEqual a b => eval p env a ≠ eval p env b
  end.

(** Modelled from the spec: a witness ([solver.hpp] is missing), "the
    assignment of concrete field values to circuit variables satisfying
    all constraints". *)
Definition witness (s : SmtSolver) (env : string → Z) : Prop :=
  Forall (holds (modulus s) env) (assertions s).

(** Modelled from the spec: [Solver::check] ([solver.hpp] is missing),
    true exactly when the constraints are satisfiable. *)
Definition check (s : SmtSolver) : Prop := ∃ env, witness s env.


(** Lines 22-49, up to the call of [check]. *)
Definition expressionTrue : M (St := SmtSolver) unit :=
  let a := Var "a" in
  let b := Var "b" in
  make_Circuit (Add a a) (Add (Add b b) b);;
  let a1 := Var "a" in
  let b1 := Var "b" in
  let c1 := Var "c" in
  let cr := Var "cr" in
  cr ← div (Mul (Const 2) a1) (Add (Mul (Const 2) b1) b1);
  assert_ (NotEqual c1 cr).

(** Lines 52-80, up to the call of [check]. *)
Definition multiplicationTrueKind : M (St := SmtSolver) unit :=
  let a := Var "a" in
  let b := Var "b" in
  make_Circuit (Add a a) (Add (Add b b) b);;
  let a1 := Var "a" in
  let b1 := Var "b" in
  let c1 := Var "c" in
  let cr := Var "cr" in
  assert_ (Equal (Mul (Mul cr (Const 3)) b1) (Mul (Const 2) a1));;
  assert_ (NotEqual c1 cr).

(** Lines 83-116, up to the call of [check]; the result is the map
    [terms] handed to [model]. *)
Definition multiplicationFalse : M (St := SmtSolver) (gmap string FFTerm) :=
  let a := Var "a" in
  let b := Var "b" in
  make_Circuit a (Add (Add b b) b);;
  let a1 := Var "a" in
  let b1 := Var "b" in
  let c1 := Var "c" in
  let cr := Var "cr" in
  cr ← div (Mul (Const 2) a1) (Mul (Const 3) b1);
  assert_ (NotEqual c1 cr);;
  mret (<["a" := a1]> (<["b" := b1]> (<["c" := c1]> (<["cr" := cr]> ∅)))).


End CircuitTest.

(** * Proofs *)

Module StrFacts.
Import Str.

Lemma str_app_cons (x : Ascii.ascii) (a b : string) :
  String x a +:+ b = String x (a +:+ b).
Proof. reflexivity. Qed.

Lemma str_app_assoc (a b c : string) : (a +:+ b) +:+ c = a +:+ (b +:+ c).
Proof.
  induction a as [|x a IH]; [reflexivity|].
  rewrite !str_app_cons. by f_equal.
Qed.

Lemma str_app_nil_r (a : string) : a +:+ "" = a.
Proof.
  induction a as [|x a IH]; [reflexivity|].
  rewrite str_app_cons. by f_equal.
Qed.

Lemma str_length_app (a b : string) :
  String.length (a +:+ b) = String.length a + String.length b.
Proof.
  induction a as [|x a IH]; [reflexivity|].
  rewrite str_app_cons. simpl. by f_equal.
Qed.

Lemma cat_app (l k : list string) : cat (l ++ k) = cat l +:+ cat k.
Proof.
  induction l as [|s l IH]; [reflexivity|].
  simpl. by rewrite IH, str_app_assoc.
Qed.

Lemma cat_singleton (a : string) : cat [a] = a.
Proof. simpl. apply str_app_nil_r. Qed.

Lemma cat_cons (a : string) (l : list string) : cat (a :: l) = a +:+ cat l.
Proof. reflexivity. Qed.

Lemma cat_nil : cat [] = "".
Proof. reflexivity. Qed.

Lemma str_app_nil_l (a : string) : "" +:+ a = a.
Proof. reflexivity. Qed.

(** Right-nested concatenations without empty pieces. *)
Ltac str_norm :=
  repeat first
    [ rewrite cat_app | rewrite cat_cons | rewrite cat_nil
    | rewrite str_app_nil_l | rewrite str_app_nil_r
    | rewrite str_app_assoc ].

(** Two texts of different lengths cannot be equal. *)
Ltac by_length H :=
  exfalso; apply (f_equal String.length) in H;
  repeat progress
    (rewrite ?cat_app, ?cat_cons, ?cat_nil, ?str_length_app in H;
     simpl in H);
  lia.
End StrFacts.

Module SmtUtilFacts.
Import Exec SmtUtil StrFacts.

Lemma World_eta (w : World) :
  mkWorld (files w) (info_log w) (writable w) = w.
Proof. by destruct w. Qed.

Lemma bind_Some {St A B} (m : M (St := St) A) (k : A → M B) st a st' :
  m st = Some (a, st') → (m ≫= k) st = k a st'.
Proof. unfold mbind, M_bind, bind. by intros ->. Qed.

Lemma at_Some {St A} (v : list A) (i : nat) (x : A) (st : St) :
  v !! i = Some x → at_ v i st = Some (x, st).
Proof. unfold at_. by intros ->. Qed.

(** Two writes in a row are one write of both texts. *)
Lemma fstream_put_put myfile (a b : list string) w :
  (fstream_put myfile a;; fstream_put myfile b) w
  = fstream_put myfile (a ++ b) w.
Proof.
  unfold mbind, M_bind, bind, fstream_put.
  destruct (is_open myfile); [|done]. simpl. f_equal. f_equal.
  rewrite lookup_insert_eq, insert_insert_eq. simpl.
  by rewrite cat_app, str_app_assoc.
Qed.

Lemma fstream_put_existing fname (a : list string) w old :
  files w !! fname = Some old →
  fstream_put (mkFstream fname true) a w
  = Some (tt, mkWorld (<[fname := old +:+ Str.cat a]> (files w)) (info_log w)
                      (writable w)).
Proof. unfold fstream_put. simpl. by intros ->. Qed.

(** On a stream whose open failed a write changes nothing. *)
Lemma fstream_put_closed fname (a : list string) w :
  fstream_put (mkFstream fname false) a w = Some (tt, w).
Proof. done. Qed.

Lemma for_each_info {A} (xs : list A) (line : A → list string) w :
  for_each xs (λ x, info (line x)) w
  = Some (tt, mkWorld (files w) (info_log w ++ (line <$> xs)) (writable w)).
Proof.
  revert w. induction xs as [|x xs IH]; intros w; simpl.
  - unfold ret. by rewrite app_nil_r, World_eta.
  - unfold bind, info at 1. rewrite IH. simpl. by rewrite <- app_assoc.
Qed.

Lemma mapM_cons_Some {A B} (f : A → option B) x l k :
  mapM f (x :: l) = Some k →
  ∃ y k', f x = Some y ∧ mapM f l = Some k' ∧ k = y :: k'.
Proof.
  simpl. destruct (f x) as [y|]; simpl; [|done].
  destruct (mapM f l) as [k'|]; simpl; [|done].
  intros [= <-]. eauto.
Qed.

Lemma mapM_seq_lookup {B} (f : nat → option B) n l :
  mapM f (seq 0 n) = Some l →
  length l = n ∧ ∀ i, i < n → is_Some (f i) ∧ l !! i = f i.
Proof.
  intros H%mapM_Some. split.
  - apply Forall2_length in H. by rewrite length_seq in H.
  - intros i Hi.
    destruct (Forall2_lookup_l _ _ _ i i H) as (y & Hy & Hf).
    { by apply lookup_seq_lt. }
    rewrite Hf. eauto.
Qed.

Lemma fstream_put_cat myfile (a b : list string) w :
  Str.cat a = Str.cat b → fstream_put myfile a w = fstream_put myfile b w.
Proof. unfold fstream_put. by intros ->. Qed.

(** On a stream whose open failed, a loop whose passes each write one line
    changes nothing. *)
Lemma put_lines_closed fname (line_at : nat → option string)
    (body : nat → M (St := World) unit) start count ls w :
  (∀ i l w, line_at i = Some l
            → body i w = fstream_put (mkFstream fname false) [l] w) →
  mapM line_at (seq start count) = Some ls →
  for_ start count (λ i _, body i) tt w = Some (tt, w).
Proof.
  intros Hbody. revert start ls.
  induction count as [|count IH]; intros start ls Hls; [done|].
  apply mapM_cons_Some in Hls as (l & k & Hl & Hk & ->).
  simpl. unfold bind at 1.
  rewrite (Hbody _ _ _ Hl), fstream_put_closed. by apply (IH (S start) k).
Qed.

(** A loop whose passes each write one line appends all the lines. *)
Lemma put_lines_from fname (line_at : nat → option string)
    (body : nat → M (St := World) unit) start count ls old w :
  (∀ i l w, line_at i = Some l
            → body i w = fstream_put (mkFstream fname true) [l] w) →
  mapM line_at (seq start count) = Some ls →
  files w !! fname = Some old →
  for_ start count (λ i _, body i) tt w
  = Some (tt, mkWorld (<[fname := old +:+ Str.cat ls]> (files w))
                      (info_log w) (writable w)).
Proof.
  intros Hbody. revert start ls old w.
  induction count as [|count IH]; intros start ls old w Hls Hold.
  - inversion Hls; subst. simpl. unfold ret.
    by rewrite str_app_nil_r, insert_id, World_eta.
  - apply mapM_cons_Some in Hls as (l & k & Hl & Hk & ->).
    simpl. unfold bind at 1.
    rewrite (Hbody _ _ _ Hl), (fstream_put_existing _ _ _ _ Hold).
    rewrite (IH (S start) k (old +:+ Str.cat [l])); [|done|]; simpl.
    + by rewrite insert_insert_eq, !str_app_assoc.
    + by rewrite lookup_insert_eq.
Qed.

Section Dump.
Context {Term : Type} (toString : Term → string).
Implicit Types c : Circuit (Term := Term).

Lemma canonical_term_Some c i t :
  canonical_term c i = Some t ↔
  ∃ r, real_variable_index c !! i = Some r ∧ symbolic_vars c !! r = Some t.
Proof.
  unfold canonical_term. split.
  - destruct (real_variable_index c !! i) as [r|]; simpl; [eauto | done].
  - by intros (r & -> & ?).
Qed.

Lemma collect_canonical_from c1 c2 start count acc1 acc2 l1 l2 w :
  mapM (canonical_term c1) (seq start count) = Some l1 →
  mapM (canonical_term c2) (seq start count) = Some l2 →
  for_ start count (push_canonical c1 c2) (acc1, acc2) w
  = Some ((acc1 ++ l1, acc2 ++ l2), w).
Proof.
  revert start acc1 acc2 l1 l2.
  induction count as [|count IH]; intros start acc1 acc2 l1 l2 H1 H2.
  - inversion H1; inversion H2; subst. simpl. by rewrite !app_nil_r.
  - apply mapM_cons_Some in H1 as (t1 & k1 & Ht1 & Hk1 & ->).
    apply mapM_cons_Some in H2 as (t2 & k2 & Ht2 & Hk2 & ->).
    apply canonical_term_Some in Ht1 as (r1 & Hr1 & Ht1).
    apply canonical_term_Some in Ht2 as (r2 & Hr2 & Ht2).
    simpl. unfold bind at 1. unfold push_canonical at 1.
    rewrite (bind_Some _ _ _ _ _ (at_Some _ _ _ w Hr1)).
    rewrite (bind_Some _ _ _ _ _ (at_Some _ _ _ w Ht1)).
    rewrite (bind_Some _ _ _ _ _ (at_Some _ _ _ w Hr2)).
    rewrite (bind_Some _ _ _ _ _ (at_Some _ _ _ w Ht2)).
    unfold mret, M_ret, ret.
    rewrite (IH (S start) _ _ k1 k2 Hk1 Hk2).
    by rewrite <- !app_assoc.
Qed.

Lemma put_pair_line_run myfile c1 vterms1 vterms2 mmap1 mmap2 i l w :
  pair_line_at toString c1 vterms1 vterms2 mmap1 mmap2 i = Some l →
  put_pair_line toString myfile c1 vterms1 vterms2 mmap1 mmap2 i w
  = fstream_put myfile [l] w.
Proof.
  unfold pair_line_at, put_pair_line. intros H.
  destruct (vterms1 !! i) as [t1|] eqn:Ht1; [|done].
  destruct (vterms2 !! i) as [t2|] eqn:Ht2; [|done].
  destruct (real_variable_index c1 !! i) as [r|] eqn:Hr; [|done].
  simpl in H. injection H as <-.
  rewrite (bind_Some _ _ _ _ _ (at_Some _ _ _ w Ht1)).
  rewrite (bind_Some _ _ _ _ _ (at_Some _ _ _ w Ht2)).
  rewrite (bind_Some _ _ _ _ _ (at_Some _ _ _ w Hr)).
  unfold pair_line.
  destruct (decide (r = i)); rewrite fstream_put_put;
    apply fstream_put_cat; rewrite cat_singleton; simpl;
    by rewrite ?str_app_assoc.
Qed.

Lemma put_single_line_run myfile c vterms mmap i l w :
  single_line_at toString c vterms mmap i = Some l →
  put_single_line toString myfile c vterms mmap i w
  = fstream_put myfile [l] w.
Proof.
  unfold single_line_at, put_single_line. intros H.
  destruct (vterms !! i) as [t|] eqn:Ht; [|done].
  destruct (real_variable_index c !! i) as [r|] eqn:Hr; [|done].
  simpl in H. injection H as <-.
  rewrite (bind_Some _ _ _ _ _ (at_Some _ _ _ w Ht)).
  rewrite (bind_Some _ _ _ _ _ (at_Some _ _ _ w Hr)).
  unfold single_line.
  destruct (decide (r = i)); apply fstream_put_cat;
    by rewrite cat_singleton.
Qed.

Lemma collect_all_from c start count acc l w :
  mapM (λ i, symbolic_vars c !! i) (seq start count) = Some l →
  for_ start count (push_var c) acc w = Some (acc ++ l, w).
Proof.
  revert start acc l.
  induction count as [|count IH]; intros start acc l H.
  - inversion H; subst. simpl. by rewrite app_nil_r.
  - apply mapM_cons_Some in H as (t & k & Ht & Hk & ->).
    simpl. unfold bind at 1. unfold push_var at 1.
    rewrite (bind_Some _ _ _ _ _ (at_Some _ _ _ w Ht)).
    unfold mret, M_ret, ret.
    rewrite (IH (S start) _ k Hk).
    by rewrite <- !app_assoc.
Qed.

Lemma pair_lines_exist c1 c2 vterms1 vterms2 mmap1 mmap2 :
  mapM (canonical_term c1) (seq 0 (get_num_vars c1)) = Some vterms1 →
  mapM (canonical_term c2) (seq 0 (get_num_vars c1)) = Some vterms2 →
  is_Some (mapM (pair_line_at toString c1 vterms1 vterms2 mmap1 mmap2)
                (seq 0 (get_num_vars c1))).
Proof.
  intros [_ H1]%mapM_seq_lookup [_ H2]%mapM_seq_lookup.
  apply mapM_is_Some, Forall_seq. intros i [_ Hi]. simpl in Hi.
  destruct (H1 i Hi) as [[t1 Ht1] Hv1], (H2 i Hi) as [[t2 Ht2] Hv2].
  apply canonical_term_Some in Ht1 as Hr. destruct Hr as (r & Hr & _).
  unfold compose, pair_line_at. rewrite Hv1, Hv2, Ht1, Ht2, Hr. by eexists.
Qed.

Lemma single_lines_exist c vterms mmap :
  mapM (λ i, symbolic_vars c !! i) (seq 0 (get_num_vars c)) = Some vterms →
  get_num_vars c ≤ length (real_variable_index c) →
  is_Some (mapM (single_line_at toString c vterms mmap)
                (seq 0 (get_num_vars c))).
Proof.
  intros [_ H]%mapM_seq_lookup Hlen.
  apply mapM_is_Some, Forall_seq. intros i [_ Hi]. simpl in Hi.
  destruct (H i Hi) as [[t Ht] Hv].
  destruct (lookup_lt_is_Some_2 (real_variable_index c) i) as [r Hr]; [lia|].
  unfold compose, single_line_at. rewrite Hv, Ht, Hr. by eexists.
Qed.

Lemma fstream_open_ok fname w :
  writable w fname = true →
  fstream_open fname w
  = Some (mkFstream fname true,
          mkWorld (<[fname := ""]> (files w)) (info_log w) (writable w)).
Proof. unfold fstream_open. by intros ->. Qed.

Lemma fstream_open_failed fname w :
  writable w fname = false →
  fstream_open fname w = Some (mkFstream fname false, w).
Proof. unfold fstream_open. by intros ->. Qed.

(** The whole run of [default_model], once the subscripts are in range
    and the file can be opened. *)
Lemma default_model_run special c1 c2 s fname w vterms1 vterms2 lines :
  writable w fname = true →
  mapM (canonical_term c1) (seq 0 (get_num_vars c1)) = Some vterms1 →
  mapM (canonical_term c2) (seq 0 (get_num_vars c1)) = Some vterms2 →
  mapM (pair_line_at toString c1 vterms1 vterms2
          (model s vterms1) (model s vterms2))
       (seq 0 (get_num_vars c1)) = Some lines →
  default_model toString special c1 c2 s fname w
  = Some (tt, mkWorld
            (<[fname := Str.cat (["w12 = {"; Str.endl] ++ lines ++ ["};"])]>
               (files w))
            (info_log w ++
             ((λ vname : string,
                 let mmap := model_named s (named_terms_pair special c1 c2) in
                 [vname; "_1, "; vname; "_2 = ";
                  subscript mmap (vname +:+ "_1"); ", ";
                  subscript mmap (vname +:+ "_2")]) <$> special))
            (writable w)).
Proof.
  intros Hw H1 H2 Hl. unfold default_model, collect_canonical.
  rewrite (bind_Some _ _ _ _ _
             (collect_canonical_from c1 c2 0 _ [] [] _ _ w H1 H2)).
  simpl app.
  rewrite (bind_Some _ _ _ _ _ (fstream_open_ok fname w Hw)).
  erewrite bind_Some; [|by apply fstream_put_existing, lookup_insert_eq].
  erewrite bind_Some.
  2:{ eapply put_lines_from; [|exact Hl|by apply lookup_insert_eq].
      intros i l w0. apply put_pair_line_run. }
  erewrite bind_Some; [|by apply fstream_put_existing, lookup_insert_eq].
  unfold report_special_pair. rewrite for_each_info. simpl files.
  rewrite !insert_insert_eq. do 3 f_equal. f_equal. f_equal. by str_norm.
Qed.

(** The whole run of [default_model] when the open fails: no file
    changes, the [info] calls are made all the same. *)
Lemma default_model_run_closed special c1 c2 s fname w vterms1 vterms2 lines :
  writable w fname = false →
  mapM (canonical_term c1) (seq 0 (get_num_vars c1)) = Some vterms1 →
  mapM (canonical_term c2) (seq 0 (get_num_vars c1)) = Some vterms2 →
  mapM (pair_line_at toString c1 vterms1 vterms2
          (model s vterms1) (model s vterms2))
       (seq 0 (get_num_vars c1)) = Some lines →
  default_model toString special c1 c2 s fname w
  = Some (tt, mkWorld (files w)
            (info_log w ++
             ((λ vname : string,
                 let mmap := model_named s (named_terms_pair special c1 c2) in
                 [vname; "_1, "; vname; "_2 = ";
                  subscript mmap (vname +:+ "_1"); ", ";
                  subscript mmap (vname +:+ "_2")]) <$> special))
            (writable w)).
Proof.
  intros Hw H1 H2 Hl. unfold default_model, collect_canonical.
  rewrite (bind_Some _ _ _ _ _
             (collect_canonical_from c1 c2 0 _ [] [] _ _ w H1 H2)).
  simpl app.
  rewrite (bind_Some _ _ _ _ _ (fstream_open_failed fname w Hw)).
  rewrite (bind_Some _ _ _ _ _ (fstream_put_closed fname _ w)).
  erewrite bind_Some.
  2:{ eapply (put_lines_closed fname); [|exact Hl].
      intros i l w0. apply put_pair_line_run. }
  rewrite (bind_Some _ _ _ _ _ (fstream_put_closed fname _ w)).
  unfold report_special_pair. by rewrite for_each_info.
Qed.

(** The whole run of [default_model_single]. *)
Lemma default_model_single_run special c s fname w vterms lines :
  writable w fname = true →
  mapM (λ i, symbolic_vars c !! i) (seq 0 (get_num_vars c)) = Some vterms →
  mapM (single_line_at toString c vterms (model s vterms))
       (seq 0 (get_num_vars c)) = Some lines →
  default_model_single toString special c s fname w
  = Some (tt, mkWorld
            (<[fname := Str.cat (["w = {"; Str.endl] ++ lines ++ ["};"])]>
               (files w))
            (info_log w ++
             ((λ vname : string,
                 let mmap1 := model_named s (named_terms_single special c) in
                 [vname; " = "; subscript mmap1 vname]) <$> special))
            (writable w)).
Proof.
  intros Hw H Hl. unfold default_model_single, collect_all.
  rewrite (bind_Some _ _ _ _ _ (collect_all_from c 0 _ [] _ w H)).
  simpl app.
  rewrite (bind_Some _ _ _ _ _ (fstream_open_ok fname w Hw)).
  erewrite bind_Some; [|by apply fstream_put_existing, lookup_insert_eq].
  erewrite bind_Some.
  2:{ eapply put_lines_from; [|exact Hl|by apply lookup_insert_eq].
      intros i l w0. apply put_single_line_run. }
  erewrite bind_Some; [|by apply fstream_put_existing, lookup_insert_eq].
  unfold report_special_single. rewrite for_each_info. simpl files.
  rewrite !insert_insert_eq. do 3 f_equal. f_equal. f_equal. by str_norm.
Qed.

Lemma default_model_single_run_closed special c s fname w vterms lines :
  writable w fname = false →
  mapM (λ i, symbolic_vars c !! i) (seq 0 (get_num_vars c)) = Some vterms →
  mapM (single_line_at toString c vterms (model s vterms))
       (seq 0 (get_num_vars c)) = Some lines →
  default_model_single toString special c s fname w
  = Some (tt, mkWorld (files w)
            (info_log w ++
             ((λ vname : string,
                 let mmap1 := model_named s (named_terms_single special c) in
                 [vname; " = "; subscript mmap1 vname]) <$> special))
            (writable w)).
Proof.
  intros Hw H Hl. unfold default_model_single, collect_all.
  rewrite (bind_Some _ _ _ _ _ (collect_all_from c 0 _ [] _ w H)).
  simpl app.
  rewrite (bind_Some _ _ _ _ _ (fstream_open_failed fname w Hw)).
  rewrite (bind_Some _ _ _ _ _ (fstream_put_closed fname _ w)).
  erewrite bind_Some.
  2:{ eapply (put_lines_closed fname); [|exact Hl].
      intros i l w0. apply put_single_line_run. }
  rewrite (bind_Some _ _ _ _ _ (fstream_put_closed fname _ w)).
  unfold report_special_single. by rewrite for_each_info.
Qed.

(** C1. When the file can be opened, the file [default_model] leaves at
    [fname] is the header line [w12 = {], then one line per index below
    [get_num_vars] with the two model values in braces and a [//] comment
    with the two variable names, then [};]; [default_model_single] writes
    [w = {], one line per index with the value and the name in a comment,
    then [};]. *)
Theorem dump_file_format :
  (∀ special c1 c2 s fname w vterms1 vterms2,
     writable w fname = true →
     mapM (canonical_term c1) (seq 0 (get_num_vars c1)) = Some vterms1 →
     mapM (canonical_term c2) (seq 0 (get_num_vars c1)) = Some vterms2 →
     ∃ w' lines,
       default_model toString special c1 c2 s fname w = Some (tt, w') ∧
       files w' = <[fname := Str.cat (["w12 = {"; Str.endl] ++ lines
                                       ++ ["};"])]> (files w) ∧
       length lines = get_num_vars c1 ∧
       ∀ i, i < get_num_vars c1 →
         ∃ r t1 t2,
           real_variable_index c1 !! i = Some r ∧
           vterms1 !! i = Some t1 ∧ vterms2 !! i = Some t2 ∧
           lines !! i =
             Some (Str.cat
               (["{"; subscript (model s vterms1) (toString t1); ", ";
                 subscript (model s vterms2) (toString t2); "}";
                 ",           // "; toString t1]
                ++ (if decide (r = i)
                    then [", "; toString t2]
                    else [" ,"; toString t2; " -> "; pretty r])
                ++ [Str.endl])))
  ∧
  (∀ special c s fname w vterms,
     writable w fname = true →
     mapM (λ i, symbolic_vars c !! i) (seq 0 (get_num_vars c))
       = Some vterms →
     get_num_vars c ≤ length (real_variable_index c) →
     ∃ w' lines,
       default_model_single toString special c s fname w = Some (tt, w') ∧
       files w' = <[fname := Str.cat (["w = {"; Str.endl] ++ lines
                                       ++ ["};"])]> (files w) ∧
       length lines = get_num_vars c ∧
       ∀ i, i < get_num_vars c →
         ∃ r t,
           real_variable_index c !! i = Some r ∧
           vterms !! i = Some t ∧
           lines !! i =
             Some (Str.cat
               ([subscript (model s vterms) (toString t);
                 ",              // "; toString t]
                ++ (if decide (r = i) then [] else [" -> "; pretty r])
                ++ [Str.endl]))).
Proof.
  split.
  - intros special c1 c2 s fname w vterms1 vterms2 Hw H1 H2.
    destruct (pair_lines_exist c1 c2 vterms1 vterms2
                (model s vterms1) (model s vterms2) H1 H2) as [lines Hl].
    eexists _, lines. split; [by eapply default_model_run|].
    split; [done|].
    apply mapM_seq_lookup in Hl as [Hlen Hl]. split; [done|].
    intros i Hi. destruct (Hl i Hi) as [[l Hline] ->].
    unfold pair_line_at in *.
    destruct (vterms1 !! i) as [t1|]; [|done].
    destruct (vterms2 !! i) as [t2|]; [|done].
    destruct (real_variable_index c1 !! i) as [r|]; [|done].
    by exists r, t1, t2.
  - intros special c s fname w vterms Hw H Hlen.
    destruct (single_lines_exist c vterms (model s vterms) H Hlen)
      as [lines Hl].
    eexists _, lines. split; [by eapply default_model_single_run|].
    split; [done|].
    apply mapM_seq_lookup in Hl as [Hlen' Hl]. split; [done|].
    intros i Hi. destruct (Hl i Hi) as [[l Hline] ->].
    unfold single_line_at in *.
    destruct (vterms !! i) as [t|]; [|done].
    destruct (real_variable_index c !! i) as [r|]; [|done].
    by exists r, t.
Qed.

(** C2. In the file of either dump, when it can be opened, the line of
    index [i] ends its comment with [ -> ] and the canonical index
    [real_variable_index[i]] exactly when that index differs from [i];
    otherwise the comment stops after the variable name(s). *)
Theorem alias_comment_iff_aliased :
  (∀ special c1 c2 s fname w vterms1 vterms2,
     writable w fname = true →
     mapM (canonical_term c1) (seq 0 (get_num_vars c1)) = Some vterms1 →
     mapM (canonical_term c2) (seq 0 (get_num_vars c1)) = Some vterms2 →
     ∃ w' lines,
       default_model toString special c1 c2 s fname w = Some (tt, w') ∧
       files w' !! fname = Some (Str.cat (["w12 = {"; Str.endl] ++ lines
                                           ++ ["};"])) ∧
       length lines = get_num_vars c1 ∧
       ∀ i, i < get_num_vars c1 →
         ∃ r t1 t2 line,
           real_variable_index c1 !! i = Some r ∧
           vterms1 !! i = Some t1 ∧ vterms2 !! i = Some t2 ∧
           lines !! i = Some line ∧
           let values := ["{"; subscript (model s vterms1) (toString t1);
                          ", "; subscript (model s vterms2) (toString t2);
                          "}"; ",           // "] in
           ((∃ sep, sep ∈ [", "; " ,"] ∧
               line = Str.cat (values ++ [toString t1; sep; toString t2;
                                          " -> "; pretty r; Str.endl]))
            ↔ r ≠ i) ∧
           (line = Str.cat (values ++ [toString t1; ", "; toString t2;
                                       Str.endl])
            ↔ r = i))
  ∧
  (∀ special c s fname w vterms,
     writable w fname = true →
     mapM (λ i, symbolic_vars c !! i) (seq 0 (get_num_vars c))
       = Some vterms →
     get_num_vars c ≤ length (real_variable_index c) →
     ∃ w' lines,
       default_model_single toString special c s fname w = Some (tt, w') ∧
       files w' !! fname = Some (Str.cat (["w = {"; Str.endl] ++ lines
                                           ++ ["};"])) ∧
       length lines = get_num_vars c ∧
       ∀ i, i < get_num_vars c →
         ∃ r t line,
           real_variable_index c !! i = Some r ∧
           vterms !! i = Some t ∧
           lines !! i = Some line ∧
           let value := [subscript (model s vterms) (toString t);
                         ",              // "] in
           (line = Str.cat (value ++ [toString t; " -> "; pretty r;
                                      Str.endl])
            ↔ r ≠ i) ∧
           (line = Str.cat (value ++ [toString t; Str.endl]) ↔ r = i)).
Proof.
  split.
  - intros special c1 c2 s fname w vterms1 vterms2 Hw H1 H2.
    destruct (pair_lines_exist c1 c2 vterms1 vterms2
                (model s vterms1) (model s vterms2) H1 H2) as [lines Hl].
    eexists _, lines. split; [by eapply default_model_run|].
    split; [by simpl; rewrite lookup_insert_eq|].
    apply mapM_seq_lookup in Hl as [Hlen Hl]. split; [done|].
    intros i Hi. destruct (Hl i Hi) as [[l Hline] ->].
    unfold pair_line_at in *.
    destruct (vterms1 !! i) as [t1|]; [|done].
    destruct (vterms2 !! i) as [t2|]; [|done].
    destruct (real_variable_index c1 !! i) as [r|]; [|done].
    exists r, t1, t2, l. do 4 (split; [done|]).
    simpl in Hline. injection Hline as <-. unfold pair_line.
    destruct (decide (r = i)) as [Heq|Hne]; (split; split).
    + intros (sep & Hsep & H).
      rewrite !elem_of_cons, elem_of_nil in Hsep.
      destruct Hsep as [->|[->|[]]]; by_length H.
    + done.
    + done.
    + done.
    + done.
    + intros _. exists " ,". split; [|done].
      rewrite !elem_of_cons. auto.
    + intros H. by_length H.
    + done.
  - intros special c s fname w vterms Hw H Hlen.
    destruct (single_lines_exist c vterms (model s vterms) H Hlen)
      as [lines Hl].
    eexists _, lines. split; [by eapply default_model_single_run|].
    split; [by simpl; rewrite lookup_insert_eq|].
    apply mapM_seq_lookup in Hl as [Hlen' Hl]. split; [done|].
    intros i Hi. destruct (Hl i Hi) as [[l Hline] ->].
    unfold single_line_at in *.
    destruct (vterms !! i) as [t|]; [|done].
    destruct (real_variable_index c !! i) as [r|]; [|done].
    exists r, t, l. do 3 (split; [done|]).
    simpl in Hline. injection Hline as <-. unfold single_line.
    destruct (decide (r = i)) as [Heq|Hne]; (split; split); try done.
    + intros Hline. by_length Hline.
    + intros Hline. by_length Hline.
Qed.

End Dump.

(** C9. [default_model] collects, for index [i] and for each circuit,
    the term of the canonical variable
    [symbolic_vars[real_variable_index[i]]]; two indices with the same
    canonical index therefore show the same two values on their lines of
    the file, when it can be opened. [default_model_single] collects
    [symbolic_vars[i]] itself, and the sample circuit shows an alias whose
    line carries another value than the line of its canonical variable. *)
Theorem canonical_values_shared :
  (∀ Term (toString : Term → string) special c1 c2 s fname w vterms1 vterms2,
     mapM (canonical_term c1) (seq 0 (get_num_vars c1)) = Some vterms1 →
     mapM (canonical_term c2) (seq 0 (get_num_vars c1)) = Some vterms2 →
     collect_canonical c1 c2 w = Some ((vterms1, vterms2), w) ∧
     (∀ i, i < get_num_vars c1 →
        ∃ r1 r2,
          real_variable_index c1 !! i = Some r1 ∧
          real_variable_index c2 !! i = Some r2 ∧
          vterms1 !! i = symbolic_vars c1 !! r1 ∧
          vterms2 !! i = symbolic_vars c2 !! r2) ∧
     (writable w fname = true →
      ∃ w' lines,
       default_model toString special c1 c2 s fname w = Some (tt, w') ∧
       files w' !! fname = Some (Str.cat (["w12 = {"; Str.endl] ++ lines
                                           ++ ["};"])) ∧
       ∀ i j, i < get_num_vars c1 → j < get_num_vars c1 →
         real_variable_index c1 !! i = real_variable_index c1 !! j →
         real_variable_index c2 !! i = real_variable_index c2 !! j →
         ∃ t1 t2 rest_i rest_j,
           vterms1 !! i = Some t1 ∧ vterms2 !! i = Some t2 ∧
           let values := ["{"; subscript (model s vterms1) (toString t1);
                          ", "; subscript (model s vterms2) (toString t2);
                          "}"] in
           lines !! i = Some (Str.cat (values ++ [rest_i])) ∧
           lines !! j = Some (Str.cat (values ++ [rest_j]))))
  ∧
  (∀ Term (c : Circuit (Term := Term)) w vterms,
     mapM (λ i, symbolic_vars c !! i) (seq 0 (get_num_vars c))
       = Some vterms →
     collect_all c w = Some (vterms, w) ∧
     ∀ i, i < get_num_vars c → vterms !! i = symbolic_vars c !! i)
  ∧
  (∃ w',
     real_variable_index Sample.circuit !! 1
       = real_variable_index Sample.circuit !! 0 ∧
     default_model_single id [] Sample.circuit Sample.solver "witness.out"
       Sample.world = Some (tt, w') ∧
     files w' !! "witness.out" =
       Some (Str.cat ["w = {"; Str.endl;
                      "val_x"; ",              // x"; Str.endl;
                      "val_y"; ",              // y -> 0"; Str.endl;
                      "val_z"; ",              // z"; Str.endl;
                      "};"]) ∧
     "val_x" ≠ "val_y").
Proof.
  split; [|split].
  - intros Term toString special c1 c2 s fname w vterms1 vterms2 H1 H2.
    split.
    { unfold collect_canonical.
      by rewrite (collect_canonical_from c1 c2 0 _ [] [] _ _ w H1 H2). }
    destruct (pair_lines_exist toString c1 c2 vterms1 vterms2
                (model s vterms1) (model s vterms2) H1 H2) as [lines Hl].
    pose proof (mapM_seq_lookup _ _ _ H1) as [_ Hv1].
    pose proof (mapM_seq_lookup _ _ _ H2) as [_ Hv2].
    assert (Hcanon : ∀ i, i < get_num_vars c1 →
              ∃ r1 r2,
                real_variable_index c1 !! i = Some r1 ∧
                real_variable_index c2 !! i = Some r2 ∧
                vterms1 !! i = symbolic_vars c1 !! r1 ∧
                vterms2 !! i = symbolic_vars c2 !! r2).
    { intros i Hi.
      destruct (Hv1 i Hi) as [[t1 Ht1] ->], (Hv2 i Hi) as [[t2 Ht2] ->].
      rewrite Ht1, Ht2.
      apply canonical_term_Some in Ht1 as (r1 & ? & ?).
      apply canonical_term_Some in Ht2 as (r2 & ? & ?).
      by exists r1, r2. }
    split; [done|]. intros Hw.
    eexists _, lines. split; [by eapply default_model_run|].
    split; [by simpl; rewrite lookup_insert_eq|].
    apply mapM_seq_lookup in Hl as [_ Hl].
    intros i j Hi Hj Hr1 Hr2.
    destruct (Hcanon i Hi) as (r1 & r2 & Hi1 & Hi2 & Hti1 & Hti2).
    destruct (Hcanon j Hj) as (r1' & r2' & Hj1 & Hj2 & Htj1 & Htj2).
    assert (r1' = r1) as -> by congruence.
    assert (r2' = r2) as -> by congruence.
    destruct (Hl i Hi) as [[li Hli] Hlooki], (Hl j Hj) as [[lj Hlj] Hlookj].
    rewrite Hlooki, Hlookj. clear Hlooki Hlookj Hli Hlj.
    unfold pair_line_at.
    rewrite Hi1, Hj1, Htj1, Htj2, Hti1, Hti2.
    destruct (Hv1 i Hi) as [_ Hs1], (Hv2 i Hi) as [_ Hs2].
    destruct (symbolic_vars c1 !! r1) as [t1|] eqn:Ht1;
      [|destruct (Hv1 i Hi) as [[? E] _]; congruence].
    destruct (symbolic_vars c2 !! r2) as [t2|] eqn:Ht2;
      [|destruct (Hv2 i Hi) as [[? E] _]; congruence].
    simpl. unfold pair_line.
    exists t1, t2,
      (Str.cat ([",           // "; toString t1]
                ++ (if decide (r1 = i)
                    then [", "; toString t2]
                    else [" ,"; toString t2; " -> "; pretty r1])
                ++ [Str.endl])),
      (Str.cat ([",           // "; toString t1]
                ++ (if decide (r1 = j)
                    then [", "; toString t2]
                    else [" ,"; toString t2; " -> "; pretty r1])
                ++ [Str.endl])).
    split; [done|]. split; [done|].
    split; f_equal; by str_norm.
  - intros Term c w vterms H. split.
    + unfold collect_all. by rewrite (collect_all_from c 0 _ [] _ w H).
    + intros i Hi. by destruct (mapM_seq_lookup _ _ _ H) as [_ Hv];
        destruct (Hv i Hi) as [_ ->].
  - eexists. split; [reflexivity|].
    split;
      [by eapply (default_model_single_run id [] Sample.circuit
                    Sample.solver) |].
    split; [|done].
    simpl files. rewrite lookup_insert_eq. by vm_compute.
Qed.

(** The file and the [info] call of [default_model] on the sample circuit
    taken twice. *)
Example default_model_sample :
  ∃ w',
    default_model id ["x"] Sample.circuit Sample.circuit Sample.solver
      "witness.out" Sample.world = Some (tt, w') ∧
    files w' !! "witness.out" =
      Some (Str.cat ["w12 = {"; Str.endl;
                     "{val_x, val_x},           // x, x"; Str.endl;
                     "{val_x, val_x},           // x ,x -> 0"; Str.endl;
                     "{val_z, val_z},           // z, z"; Str.endl;
                     "};"]) ∧
    info_log w' = [["x"; "_1, "; "x"; "_2 = "; "val_x"; ", "; "val_x"]].
Proof.
  eexists. split.
  - by eapply (default_model_run id ["x"] Sample.circuit Sample.circuit
                 Sample.solver).
  - split; [|by vm_compute].
    simpl files. rewrite lookup_insert_eq. by vm_compute.
Qed.

(** The theorems above at the sample circuit, whose subscripts are all
    in range. *)
Lemma dump_file_format_witness :
  writable Sample.world "witness.out" = true ∧
  (mapM (canonical_term Sample.circuit) (seq 0 3) = Some ["x"; "x"; "z"] ∧
   ∃ w' lines,
     default_model id ["x"] Sample.circuit Sample.circuit Sample.solver
       "witness.out" Sample.world = Some (tt, w') ∧
     files w' = <["witness.out" :=
                   Str.cat (["w12 = {"; Str.endl] ++ lines ++ ["};"])]> ∅ ∧
     length lines = 3) ∧
  (mapM (λ i, symbolic_vars Sample.circuit !! i) (seq 0 3)
     = Some ["x"; "y"; "z"] ∧
   3 ≤ length (real_variable_index Sample.circuit) ∧
   ∃ w' lines,
     default_model_single id ["x"] Sample.circuit Sample.solver
       "witness.out" Sample.world = Some (tt, w') ∧
     files w' = <["witness.out" :=
                   Str.cat (["w = {"; Str.endl] ++ lines ++ ["};"])]> ∅ ∧
     length lines = 3).
Proof.
  split; [reflexivity|]. split.
  - split; [reflexivity|].
    destruct (proj1 (dump_file_format id) ["x"] Sample.circuit Sample.circuit
                Sample.solver "witness.out" Sample.world
                ["x"; "x"; "z"] ["x"; "x"; "z"] eq_refl eq_refl eq_refl)
      as (w' & lines & Hrun & Hfiles & Hlen & _).
    exists w', lines. auto.
  - split; [reflexivity|]. split; [simpl; lia|].
    destruct (proj2 (dump_file_format id) ["x"] Sample.circuit
                Sample.solver "witness.out" Sample.world
                ["x"; "y"; "z"] eq_refl eq_refl (le_n 3))
      as (w' & lines & Hrun & Hfiles & Hlen & _).
    exists w', lines. auto.
Defined.

Lemma alias_comment_iff_aliased_witness :
  writable Sample.world "witness.out" = true ∧
  (mapM (canonical_term Sample.circuit) (seq 0 3) = Some ["x"; "x"; "z"] ∧
   ∃ w' lines,
     default_model id [] Sample.circuit Sample.circuit Sample.solver
       "witness.out" Sample.world = Some (tt, w') ∧
     files w' !! "witness.out"
       = Some (Str.cat (["w12 = {"; Str.endl] ++ lines ++ ["};"])) ∧
     length lines = 3) ∧
  (mapM (λ i, symbolic_vars Sample.circuit !! i) (seq 0 3)
     = Some ["x"; "y"; "z"] ∧
   3 ≤ length (real_variable_index Sample.circuit) ∧
   ∃ w' lines,
     default_model_single id [] Sample.circuit Sample.solver
       "witness.out" Sample.world = Some (tt, w') ∧
     files w' !! "witness.out"
       = Some (Str.cat (["w = {"; Str.endl] ++ lines ++ ["};"])) ∧
     length lines = 3).
Proof.
  split; [reflexivity|]. split.
  - split; [reflexivity|].
    destruct (proj1 (alias_comment_iff_aliased id) [] Sample.circuit
                Sample.circuit Sample.solver "witness.out" Sample.world
                ["x"; "x"; "z"] ["x"; "x"; "z"] eq_refl eq_refl eq_refl)
      as (w' & lines & Hrun & Hfiles & Hlen & _).
    exists w', lines. auto.
  - split; [reflexivity|]. split; [simpl; lia|].
    destruct (proj2 (alias_comment_iff_aliased id) [] Sample.circuit
                Sample.solver "witness.out" Sample.world
                ["x"; "y"; "z"] eq_refl eq_refl (le_n 3))
      as (w' & lines & Hrun & Hfiles & Hlen & _).
    exists w', lines. auto.
Defined.

Lemma canonical_values_shared_witness :
  mapM (canonical_term Sample.circuit) (seq 0 3) = Some ["x"; "x"; "z"] ∧
  collect_canonical Sample.circuit Sample.circuit Sample.world
    = Some ((["x"; "x"; "z"], ["x"; "x"; "z"]), Sample.world) ∧
  writable Sample.world "witness.out" = true ∧
  (∃ w' lines,
     default_model id [] Sample.circuit Sample.circuit Sample.solver
       "witness.out" Sample.world = Some (tt, w') ∧
     files w' !! "witness.out"
       = Some (Str.cat (["w12 = {"; Str.endl] ++ lines ++ ["};"]))) ∧
  mapM (λ i, symbolic_vars Sample.circuit !! i) (seq 0 3)
    = Some ["x"; "y"; "z"] ∧
  collect_all Sample.circuit Sample.world
    = Some (["x"; "y"; "z"], Sample.world).
Proof.
  split; [reflexivity|].
  destruct (proj1 canonical_values_shared string id []
              Sample.circuit Sample.circuit Sample.solver
              "witness.out" Sample.world
              ["x"; "x"; "z"] ["x"; "x"; "z"] eq_refl eq_refl)
    as (Hcollect & _ & Hfile).
  split; [exact Hcollect|]. split; [reflexivity|]. split.
  - destruct (Hfile eq_refl) as (w' & lines & Hrun & Hfiles & _).
    exists w', lines. auto.
  - split; [reflexivity|].
    exact (proj1 (proj1 (proj2 canonical_values_shared) string
                    Sample.circuit Sample.world ["x"; "y"; "z"] eq_refl)).
Defined.

End SmtUtilFacts.

Module LookupsBcDecompositionFacts.
Import LookupsBcDecomposition.

Section Field.
Variable p : Z.
Hypothesis p_gt_1 : (1 < p)%Z.

Lemma zero_canonical : FF.zero p = 0%Z.
Proof. unfold FF.zero, FF.of_Z. apply Z.mod_0_l. lia. Qed.

Lemma one_canonical : FF.one p = 1%Z.
Proof. unfold FF.one, FF.of_Z. apply Z.mod_small. lia. Qed.

Lemma sub_add_mul (a b : Z) :
  FF.sub p (FF.add p a b) (FF.mul p a b) = ((a + b - a * b) mod p)%Z.
Proof. unfold FF.sub, FF.add, FF.mul. by rewrite <- Zminus_mod. Qed.

Lemma eqb_one (a : Z) :
  (a = 0 ∨ a = 1)%Z → FF.eqb p a (FF.one p) = true ↔ a = 1%Z.
Proof.
  unfold FF.eqb. rewrite one_canonical, bool_decide_eq_true.
  intros [-> | ->]; rewrite ?Z.mod_0_l, !(Z.mod_small 1) by lia; lia.
Qed.

(** C7. On selectors that are 0 or 1, [compute_inverse_exists] is
    [is_operation + is_table_entry - is_operation * is_table_entry], it is
    0 or 1 again, and it is 1 exactly when
    [inverse_polynomial_is_computed_at_row] holds, that is when one of the
    two selectors is 1. *)
Theorem compute_inverse_exists_is_or (in_ : AllEntities Z) :
  in_ bc_decomposition_sel = FF.zero p ∨ in_ bc_decomposition_sel = FF.one p →
  in_ precomputed_sel_unary = FF.zero p ∨ in_ precomputed_sel_unary = FF.one p →
  compute_inverse_exists p in_
    = FF.sub p (FF.add p (in_ bc_decomposition_sel) (in_ precomputed_sel_unary))
               (FF.mul p (in_ bc_decomposition_sel) (in_ precomputed_sel_unary))
  ∧ (compute_inverse_exists p in_ = FF.zero p
     ∨ compute_inverse_exists p in_ = FF.one p)
  ∧ (compute_inverse_exists p in_ = FF.one p
     ↔ inverse_polynomial_is_computed_at_row p in_ = true)
  ∧ (inverse_polynomial_is_computed_at_row p in_ = true
     ↔ in_ bc_decomposition_sel = FF.one p
       ∨ in_ precomputed_sel_unary = FF.one p).
Proof.
  unfold compute_inverse_exists, inverse_polynomial_is_computed_at_row.
  generalize (in_ bc_decomposition_sel) (in_ precomputed_sel_unary).
  intros a b. rewrite zero_canonical, one_canonical. intros Ha Hb.
  pose proof (eqb_one a Ha) as Ea. pose proof (eqb_one b Hb) as Eb.
  rewrite one_canonical in Ea, Eb.
  rewrite sub_add_mul, orb_true_iff, Ea, Eb.
  destruct Ha as [-> | ->], Hb as [-> | ->]; simpl;
    rewrite ?Z.mod_0_l, ?(Z.mod_small 1) by lia; intuition lia.
Qed.

End Field.

(** C8. The three accessors return the same eight references, in the
    order inverses, counts, source selector, destination selector, source
    columns, destination columns; their number is
    [4 + 2 * LOOKUP_TUPLE_SIZE]. *)
Theorem entity_accessors_agree {T} (in_ : AllEntities T) :
  get_const_entities in_ = get_entities in_
  ∧ get_nonconst_entities in_ = get_entities in_
  ∧ length (get_entities in_) = 8
  ∧ length (get_entities in_)
    = 4 + 2 * LOOKUP_TUPLE_SIZE lookup_bytecode_to_read_unary_lookup_settings
  ∧ get_entities in_
    = ref in_ <$>
        [INVERSES lookup_bytecode_to_read_unary_lookup_settings;
         COUNTS lookup_bytecode_to_read_unary_lookup_settings;
         SRC_SELECTOR lookup_bytecode_to_read_unary_lookup_settings;
         DST_SELECTOR lookup_bytecode_to_read_unary_lookup_settings]
        ++ SRC_COLUMNS lookup_bytecode_to_read_unary_lookup_settings
        ++ DST_COLUMNS lookup_bytecode_to_read_unary_lookup_settings.
Proof. by repeat split. Qed.

Lemma compute_inverse_exists_is_or_witness :
  (1 < 7)%Z
  ∧ (Sample.reading_row bc_decomposition_sel = FF.zero 7
     ∨ Sample.reading_row bc_decomposition_sel = FF.one 7)
  ∧ (Sample.reading_row precomputed_sel_unary = FF.zero 7
     ∨ Sample.reading_row precomputed_sel_unary = FF.one 7)
  ∧ (compute_inverse_exists 7 Sample.reading_row = FF.one 7
     ↔ inverse_polynomial_is_computed_at_row 7 Sample.reading_row = true).
Proof.
  split; [lia|]. split; [by right|]. split; [by left|].
  apply (compute_inverse_exists_is_or 7 ltac:(lia) Sample.reading_row);
    [by right | by left].
Defined.

End LookupsBcDecompositionFacts.

Module CircuitTestFacts.
Import Exec CircuitTest.
Local Open Scope Z_scope.

Lemma eval_evalZ p env t : eval p env t = evalZ env t mod p.
Proof.
  induction t as [name|k|a IHa b IHb|a IHa b IHb]; simpl;
    unfold FF.of_Z, FF.add, FF.mul; try done.
  - by rewrite IHa, IHb, <- Zplus_mod.
  - by rewrite IHa, IHb, <- Zmult_mod.
Qed.

(** In a prime field a quotient by a nonzero divisor is unique. *)
Lemma quotient_unique p c r d n :
  Z.prime p →
  d mod p ≠ 0 mod p →
  (c * d) mod p = n mod p →
  (r * d) mod p = n mod p →
  c mod p = r mod p.
Proof.
  intros Hp Hd Hc Hr.
  assert (Hp0 : p ≠ 0) by (destruct Hp; lia).
  apply Z.cong_iff_ex in Hc as [k Hk], Hr as [m Hm].
  destruct (proj1 (Z.divide_prime_mul (c - r) d p Hp)) as [[q Hq]|Hdiv].
  - exists (k - m). lia.
  - apply Z.cong_iff_ex. by exists q.
  - destruct Hd. rewrite Z.mod_0_l by done. by apply Z.mod_divide.
Qed.

Lemma expressionTrue_run p :
  expressionTrue (new_solver p)
  = Some (tt, mkSmtSolver p
      [ NotEqual (Add (Add (Var "b") (Var "b")) (Var "b")) (Const 0);
        Equal (Mul (Var "c") (Add (Add (Var "b") (Var "b")) (Var "b")))
              (Add (Var "a") (Var "a"));
        NotEqual (Add (Mul (Const 2) (Var "b")) (Var "b")) (Const 0);
        Equal (Mul (Var "div_0") (Add (Mul (Const 2) (Var "b")) (Var "b")))
              (Mul (Const 2) (Var "a"));
        NotEqual (Var "c") (Var "div_0") ] 1).
Proof. reflexivity. Qed.

Lemma multiplicationTrueKind_run p :
  multiplicationTrueKind (new_solver p)
  = Some (tt, mkSmtSolver p
      [ NotEqual (Add (Add (Var "b") (Var "b")) (Var "b")) (Const 0);
        Equal (Mul (Var "c") (Add (Add (Var "b") (Var "b")) (Var "b")))
              (Add (Var "a") (Var "a"));
        Equal (Mul (Mul (Var "cr") (Const 3)) (Var "b"))
              (Mul (Const 2) (Var "a"));
        NotEqual (Var "c") (Var "cr") ] 0).
Proof. reflexivity. Qed.

Lemma multiplicationFalse_run p :
  multiplicationFalse (new_solver p)
  = Some (<["a" := Var "a"]> (<["b" := Var "b"]> (<["c" := Var "c"]>
            (<["cr" := Var "div_0"]> ∅))),
          mkSmtSolver p
      [ NotEqual (Add (Add (Var "b") (Var "b")) (Var "b")) (Const 0);
        Equal (Mul (Var "c") (Add (Add (Var "b") (Var "b")) (Var "b")))
              (Var "a");
        NotEqual (Mul (Const 3) (Var "b")) (Const 0);
        Equal (Mul (Var "div_0") (Mul (Const 3) (Var "b")))
              (Mul (Const 2) (Var "a"));
        NotEqual (Var "c") (Var "div_0") ] 1).
Proof. reflexivity. Qed.

(** C3. For the circuit [c = (a + a) / (b + b + b)], once [cr] is
    [(2 * a1) / (2 * b1 + b1)], or [cr * 3 * b1 == 2 * a1] is asserted, and
    [c1 != cr] is asserted, [check()] is false: no assignment satisfies the
    assertions. *)
Theorem correct_circuit_unsat p :
  Z.prime p →
  (∃ s, expressionTrue (new_solver p) = Some (tt, s) ∧ ¬ check s)
  ∧ (∃ s, multiplicationTrueKind (new_solver p) = Some (tt, s) ∧ ¬ check s).
Proof.
  intros Hp. split.
  - eexists. split; [apply expressionTrue_run|].
    intros [env H]. unfold witness in H. simpl in H.
    apply Forall_cons in H as [Hden H]. apply Forall_cons in H as [Hc H].
    apply Forall_cons in H as [_ H]. apply Forall_cons in H as [Hcr H].
    apply Forall_cons in H as [Hne _]. unfold holds in *.
    rewrite !eval_evalZ in *. simpl in *. apply Hne.
    apply (quotient_unique p _ _ (env "b" + env "b" + env "b")
             (env "a" + env "a")); [done..|].
    rewrite (Z.add_diag (env "a")), <- Hcr. f_equal. lia.
  - eexists. split; [apply multiplicationTrueKind_run|].
    intros [env H]. unfold witness in H. simpl in H.
    apply Forall_cons in H as [Hden H]. apply Forall_cons in H as [Hc H].
    apply Forall_cons in H as [Hcr H]. apply Forall_cons in H as [Hne _].
    unfold holds in *.
    rewrite !eval_evalZ in *. simpl in *. apply Hne.
    apply (quotient_unique p _ _ (env "b" + env "b" + env "b")
             (env "a" + env "a")); [done..|].
    rewrite (Z.add_diag (env "a")), <- Hcr. f_equal. lia.
Qed.


Lemma prime_7 : Z.prime 7.
Proof.
  split; [lia|]. intros n Hn [k Hk].
  assert (n = 2 ∨ n = 3 ∨ n = 4 ∨ n = 5 ∨ n = 6) as Hcases by lia.
  destruct Hcases as [->|[->|[->|[->| ->]]]]; lia.
Qed.

Lemma correct_circuit_unsat_witness :
  Z.prime 7
  ∧ (∃ s, expressionTrue (new_solver 7) = Some (tt, s) ∧ ¬ check s)
  ∧ (∃ s, multiplicationTrueKind (new_solver 7) = Some (tt, s) ∧ ¬ check s).
Proof.
  split; [exact prime_7|]. exact (correct_circuit_unsat 7 prime_7).
Defined.


End CircuitTestFacts.

(** * Further properties of [smt_util.hpp] *)

Module SmtUtilMore.
Import Exec SmtUtil StrFacts SmtUtilFacts.

Lemma bind_None {St A B} (m : M (St := St) A) (k : A → M B) st :
  m st = None → (m ≫= k) st = None.
Proof. unfold mbind, M_bind, bind. by intros ->. Qed.

Lemma at_None {St A} (v : list A) (i : nat) (st : St) :
  v !! i = None → at_ v i st = None.
Proof. unfold at_. by intros ->. Qed.

Lemma mapM_cons_None {A B} (f : A → option B) x l :
  mapM f (x :: l) = None ↔ f x = None ∨ mapM f l = None.
Proof.
  simpl. destruct (f x) as [y|]; simpl; [|by split; [left|]].
  destruct (mapM f l) as [k|]; simpl; [|by split; [right|]].
  split; [done | by intros [|]].
Qed.

Lemma mapM_lookup_is_Some {A} (l : list A) n :
  is_Some (mapM (λ i, l !! i) (seq 0 n)) ↔ n ≤ length l.
Proof.
  rewrite mapM_is_Some, Forall_seq. unfold compose. split.
  - intros H. destruct n as [|n]; [lia|].
    apply Nat.le_succ_l, lookup_lt_is_Some, H. lia.
  - intros H i Hi. apply lookup_lt_is_Some. lia.
Qed.

(** A loop of line writes stops at the first pass that fails. *)
Lemma put_lines_from_None myfile (line_at : nat → option string)
    (body : nat → M (St := World) unit) start count w :
  (∀ i l w, line_at i = Some l → body i w = fstream_put myfile [l] w) →
  (∀ i w, line_at i = None → body i w = None) →
  mapM line_at (seq start count) = None →
  for_ start count (λ i _, body i) tt w = None.
Proof.
  intros Hsome Hnone. revert start w.
  induction count as [|count IH]; intros start w Hls; [done|].
  simpl for_. unfold bind at 1.
  destruct (line_at start) as [l|] eqn:Hl.
  - rewrite (Hsome _ _ _ Hl). unfold fstream_put at 1.
    destruct (is_open myfile); apply IH;
      apply mapM_cons_None in Hls as [?|?]; congruence || done.
  - by rewrite (Hnone _ _ Hl).
Qed.

(** A write never fails, so what follows it decides whether the run
    does. *)
Lemma put_then_None {A} myfile (a : list string) (k : unit → M A) w :
  (∀ w1, k tt w1 = None) → (fstream_put myfile a ≫= k) w = None.
Proof.
  intros H. unfold mbind, M_bind, bind, fstream_put.
  destruct (is_open myfile); apply H.
Qed.

Lemma open_then_None {A} fname (k : fstream → M A) w :
  (∀ myfile w1, k myfile w1 = None) → (fstream_open fname ≫= k) w = None.
Proof.
  intros H. unfold mbind, M_bind, bind, fstream_open.
  destruct (writable w fname); apply H.
Qed.

(** Texts that end in suffixes of the same length are equal piece by
    piece. *)
Lemma str_app_inj_len (a b c d : string) :
  String.length c = String.length d →
  a +:+ c = b +:+ d → a = b ∧ c = d.
Proof.
  intros Hlen. revert b.
  induction a as [|x a IH]; intros [|y b] H.
  - done.
  - apply (f_equal String.length) in H.
    rewrite str_app_nil_l, str_app_cons in H. simpl in H.
    rewrite str_length_app in H. lia.
  - apply (f_equal String.length) in H.
    rewrite str_app_nil_l, str_app_cons in H. simpl in H.
    rewrite str_length_app in H. lia.
  - rewrite !str_app_cons in H. injection H as -> H.
    destruct (IH b H) as [-> ->]. done.
Qed.

Lemma insert_new_lookup {V} (key k : string) (v : V) (m : gmap string V) :
  insert_new key v m !! k
  = match m !! k with
    | Some t => Some t
    | None => if decide (k = key) then Some v else None
    end.
Proof.
  unfold insert_new. destruct (m !! key) as [t|] eqn:Hkey.
  - destruct (m !! k) eqn:Hk; [done|]. case_decide; [congruence | done].
  - destruct (decide (k = key)) as [->|Hne].
    + by rewrite lookup_insert_eq, Hkey.
    + rewrite lookup_insert_ne by done. by destruct (m !! k).
Qed.

Ltac str_norm_in H :=
  repeat first
    [ rewrite cat_app in H | rewrite cat_cons in H | rewrite cat_nil in H
    | rewrite str_app_nil_l in H | rewrite str_app_nil_r in H
    | rewrite str_app_assoc in H ].

(** Texts without a line end, such as printed numbers. *)
Local Abbreviation no_endl s := (∀ a b : string, s ≠ a +:+ Str.endl +:+ b).

Lemma no_endl_nil : no_endl "".
Proof. intros [|x a] b; discriminate. Qed.

Lemma no_endl_cons (x : Ascii.ascii) (s : string) :
  x ≠ Ascii.ascii_of_nat 10 → no_endl s → no_endl (String x s).
Proof.
  intros Hx Hs [|y a] b H.
  - injection H as -> _. done.
  - rewrite str_app_cons in H. injection H as _ H. by apply Hs in H.
Qed.

Lemma no_endl_inv (x : Ascii.ascii) (s : string) :
  no_endl (String x s) → x ≠ Ascii.ascii_of_nat 10 ∧ no_endl s.
Proof.
  intros H. split.
  - intros ->. by apply (H "" s).
  - intros a b ->. by apply (H (String x a) b).
Qed.

Lemma pretty_N_char_no_endl (x : N) : pretty_N_char x ≠ Ascii.ascii_of_nat 10.
Proof. compute. by repeat (discriminate || case_match). Qed.

Lemma pretty_N_go_no_endl (x : N) (s : string) :
  no_endl s → no_endl (pretty_N_go x s).
Proof.
  revert s. induction (N.lt_wf_0 x) as [x _ IH]. intros s Hs.
  destruct (decide (0 < x)%N) as [Hx|Hx].
  - rewrite pretty_N_go_step by done. apply IH; [by apply N.div_lt|].
    apply no_endl_cons; [apply pretty_N_char_no_endl | done].
  - assert (x = 0%N) as -> by lia. by rewrite pretty_N_go_0.
Qed.

Lemma pretty_nat_no_endl (r : nat) : no_endl (pretty r).
Proof.
  unfold pretty, pretty_nat, pretty, pretty_N. case_decide.
  - apply no_endl_cons; [discriminate | apply no_endl_nil].
  - apply pretty_N_go_no_endl, no_endl_nil.
Qed.

(** Two texts without a line end that are followed by a line end and
    agree with what follows are equal. *)
Lemma endl_cancel (d d' x y : string) :
  no_endl d → no_endl d' →
  d +:+ Str.endl +:+ x = d' +:+ Str.endl +:+ y → d = d' ∧ x = y.
Proof.
  revert d'. induction d as [|c d IH]; intros [|c' d'] Hd Hd' H.
  - rewrite !str_app_nil_l in H. apply String.app_inj in H. by subst.
  - exfalso. rewrite str_app_cons in H. injection H as <- _.
    by apply (Hd' "" d').
  - exfalso. rewrite str_app_cons in H. injection H as -> _.
    by apply (Hd "" d).
  - rewrite !str_app_cons in H. injection H as -> H.
    apply no_endl_inv in Hd as [_ Hd]. apply no_endl_inv in Hd' as [_ Hd'].
    by destruct (IH d' Hd Hd' H) as [-> ->].
Qed.

(** The end of a line of the single-circuit listing gives back the
    canonical index. *)
Lemma alias_suffix_inj (i r r' : nat) (x y : string) :
  Str.cat (if decide (r = i) then [] else [" -> "; pretty r])
    +:+ Str.endl +:+ x
  = Str.cat (if decide (r' = i) then [] else [" -> "; pretty r'])
    +:+ Str.endl +:+ y →
  r = r' ∧ x = y.
Proof.
  destruct (decide (r = i)) as [->|Hr], (decide (r' = i)) as [->|Hr'];
    intros H.
  - split; [done|]. str_norm_in H. by apply String.app_inj in H.
  - exfalso. discriminate H.
  - exfalso. discriminate H.
  - str_norm_in H. apply String.app_inj in H.
    apply endl_cancel in H as [Hp ->]; [|apply pretty_nat_no_endl..].
    split; [|done]. by apply (inj pretty).
Qed.

Section Dump.
Context {Term : Type} (toString : Term → string).
Implicit Types c : Circuit (Term := Term).

Lemma collect_all_None c start count acc w :
  mapM (λ i, symbolic_vars c !! i) (seq start count) = None →
  for_ start count (push_var c) acc w = None.
Proof.
  revert start acc. induction count as [|count IH]; intros start acc H; [done|].
  simpl for_. unfold bind at 1. unfold push_var at 1.
  destruct (symbolic_vars c !! start) as [t|] eqn:Ht.
  - rewrite (bind_Some _ _ _ _ _ (at_Some _ _ _ w Ht)).
    unfold mret, M_ret, ret. apply IH.
    apply mapM_cons_None in H as [?|?]; [congruence | done].
  - by rewrite (bind_None _ _ _ (at_None _ _ w Ht)).
Qed.

Lemma collect_canonical_None c1 c2 start count acc w :
  mapM (canonical_term c1) (seq start count) = None
  ∨ mapM (canonical_term c2) (seq start count) = None →
  for_ start count (push_canonical c1 c2) acc w = None.
Proof.
  revert start acc. induction count as [|count IH]; intros start acc H.
  { by destruct H. }
  destruct acc as [acc1 acc2]. simpl for_. unfold bind at 1.
  unfold push_canonical at 1.
  destruct (real_variable_index c1 !! start) as [r1|] eqn:Hr1;
    [|by rewrite (bind_None _ _ _ (at_None _ _ w Hr1))].
  rewrite (bind_Some _ _ _ _ _ (at_Some _ _ _ w Hr1)).
  destruct (symbolic_vars c1 !! r1) as [t1|] eqn:Ht1;
    [|by rewrite (bind_None _ _ _ (at_None _ _ w Ht1))].
  rewrite (bind_Some _ _ _ _ _ (at_Some _ _ _ w Ht1)).
  destruct (real_variable_index c2 !! start) as [r2|] eqn:Hr2;
    [|by rewrite (bind_None _ _ _ (at_None _ _ w Hr2))].
  rewrite (bind_Some _ _ _ _ _ (at_Some _ _ _ w Hr2)).
  destruct (symbolic_vars c2 !! r2) as [t2|] eqn:Ht2;
    [|by rewrite (bind_None _ _ _ (at_None _ _ w Ht2))].
  rewrite (bind_Some _ _ _ _ _ (at_Some _ _ _ w Ht2)).
  unfold mret, M_ret, ret. apply IH.
  assert (canonical_term c1 start = Some t1) by (apply canonical_term_Some; eauto).
  assert (canonical_term c2 start = Some t2) by (apply canonical_term_Some; eauto).
  change (seq start (S count)) with (start :: seq (S start) count) in H.
  rewrite !mapM_cons_None in H. destruct H as [[?|?]|[?|?]]; try congruence; auto.
Qed.

Lemma put_single_line_None myfile c vterms mmap i w :
  single_line_at toString c vterms mmap i = None →
  put_single_line toString myfile c vterms mmap i w = None.
Proof.
  unfold single_line_at, put_single_line. intros H.
  destruct (vterms !! i) as [t|] eqn:Ht;
    [|by rewrite (bind_None _ _ _ (at_None _ _ w Ht))].
  rewrite (bind_Some _ _ _ _ _ (at_Some _ _ _ w Ht)).
  destruct (real_variable_index c !! i) as [r|] eqn:Hr; [done|].
  by rewrite (bind_None _ _ _ (at_None _ _ w Hr)).
Qed.

Lemma canonical_term_is_Some c i :
  is_Some (canonical_term c i) ↔
  ∃ r, real_variable_index c !! i = Some r ∧ r < length (symbolic_vars c).
Proof.
  split.
  - intros [t (r & Hr & Ht)%canonical_term_Some]. exists r. split; [done|].
    by eapply lookup_lt_Some.
  - intros (r & Hr & Hlt).
    destruct (lookup_lt_is_Some_2 (symbolic_vars c) r Hlt) as [t Ht].
    exists t. apply canonical_term_Some. eauto.
Qed.

Lemma default_model_single_in_range_aux special c s fname w :
  is_Some (default_model_single toString special c s fname w) →
  get_num_vars c ≤ length (symbolic_vars c)
  ∧ get_num_vars c ≤ length (real_variable_index c).
Proof.
  intros Hrun.
  destruct (mapM (λ i, symbolic_vars c !! i) (seq 0 (get_num_vars c)))
    as [vterms|] eqn:H1.
  2:{ exfalso. unfold default_model_single, collect_all in Hrun.
      rewrite (bind_None _ _ _ (collect_all_None c 0 _ [] w H1)) in Hrun.
      by destruct Hrun. }
  split; [apply mapM_lookup_is_Some; by rewrite H1|].
  destruct (mapM (single_line_at toString c vterms (model s vterms))
              (seq 0 (get_num_vars c))) as [lines|] eqn:H2.
  + apply mapM_seq_lookup in H2 as [_ H2].
    destruct (get_num_vars c) as [|n]; [lia|].
    destruct (H2 n ltac:(lia)) as [[l Hl] _]. unfold single_line_at in Hl.
    destruct (vterms !! n); [|done].
    destruct (real_variable_index c !! n) as [r|] eqn:Hr; [|done].
    apply Nat.le_succ_l. by eapply lookup_lt_Some.
  + exfalso. unfold default_model_single, collect_all in Hrun.
    rewrite (bind_Some _ _ _ _ _ (collect_all_from c 0 _ [] _ w H1)) in Hrun.
    simpl app in Hrun.
    rewrite open_then_None in Hrun; [by destruct Hrun|].
    intros myfile w1. apply put_then_None. intros w2. apply bind_None.
    eapply put_lines_from_None; [| |exact H2].
    * intros i l w0. apply put_single_line_run.
    * intros i w0. apply put_single_line_None.
Qed.

(** The whole run of either dump, whether or not the file can be
    opened. *)
Lemma default_model_run_any special c1 c2 s fname w vterms1 vterms2 lines :
  mapM (canonical_term c1) (seq 0 (get_num_vars c1)) = Some vterms1 →
  mapM (canonical_term c2) (seq 0 (get_num_vars c1)) = Some vterms2 →
  mapM (pair_line_at toString c1 vterms1 vterms2
          (model s vterms1) (model s vterms2))
       (seq 0 (get_num_vars c1)) = Some lines →
  default_model toString special c1 c2 s fname w
  = Some (tt, mkWorld
            (if writable w fname
             then <[fname := Str.cat (["w12 = {"; Str.endl] ++ lines
                                        ++ ["};"])]> (files w)
             else files w)
            (info_log w ++
             ((λ vname : string,
                 let mmap := model_named s (named_terms_pair special c1 c2) in
                 [vname; "_1, "; vname; "_2 = ";
                  subscript mmap (vname +:+ "_1"); ", ";
                  subscript mmap (vname +:+ "_2")]) <$> special))
            (writable w)).
Proof.
  intros H1 H2 Hl. destruct (writable w fname) eqn:Hw.
  - by apply default_model_run with vterms1 vterms2.
  - by apply default_model_run_closed with vterms1 vterms2 lines.
Qed.

Lemma default_model_single_run_any special c s fname w vterms lines :
  mapM (λ i, symbolic_vars c !! i) (seq 0 (get_num_vars c)) = Some vterms →
  mapM (single_line_at toString c vterms (model s vterms))
       (seq 0 (get_num_vars c)) = Some lines →
  default_model_single toString special c s fname w
  = Some (tt, mkWorld
            (if writable w fname
             then <[fname := Str.cat (["w = {"; Str.endl] ++ lines
                                        ++ ["};"])]> (files w)
             else files w)
            (info_log w ++
             ((λ vname : string,
                 let mmap1 := model_named s (named_terms_single special c) in
                 [vname; " = "; subscript mmap1 vname]) <$> special))
            (writable w)).
Proof.
  intros H1 Hl. destruct (writable w fname) eqn:Hw.
  - by apply default_model_single_run with vterms.
  - by apply default_model_single_run_closed with vterms lines.
Qed.

(** X1. [default_model_single] makes no out-of-range subscript exactly
    when [symbolic_vars] and [real_variable_index] both have at least
    [get_num_vars()] elements. *)
Theorem default_model_single_in_range special c s fname w :
  is_Some (default_model_single toString special c s fname w)
  ↔ get_num_vars c ≤ length (symbolic_vars c)
    ∧ get_num_vars c ≤ length (real_variable_index c).
Proof.
  split; [apply default_model_single_in_range_aux|].
  intros [Hsv Hrvi].
  destruct (proj2 (mapM_lookup_is_Some (symbolic_vars c) _) Hsv)
    as [vterms H1].
  destruct (single_lines_exist toString c vterms (model s vterms) H1 Hrvi)
    as [lines H2].
  by rewrite (default_model_single_run_any special c s fname w
                vterms lines H1 H2).
Qed.

(** X2. [default_model] makes no out-of-range subscript exactly when, for
    every index below [c1.get_num_vars()], both circuits have a canonical
    index and a symbolic variable at that canonical index; the second
    circuit is read over the range of the first. *)
Theorem default_model_in_range special c1 c2 s fname w :
  is_Some (default_model toString special c1 c2 s fname w)
  ↔ ∀ i, i < get_num_vars c1 →
      ∃ r1 r2,
        real_variable_index c1 !! i = Some r1
        ∧ r1 < length (symbolic_vars c1)
        ∧ real_variable_index c2 !! i = Some r2
        ∧ r2 < length (symbolic_vars c2).
Proof.
  split.
  - intros Hrun.
    assert (H12 : is_Some (mapM (canonical_term c1) (seq 0 (get_num_vars c1)))
                  ∧ is_Some (mapM (canonical_term c2)
                               (seq 0 (get_num_vars c1)))).
    { destruct (mapM (canonical_term c1) (seq 0 (get_num_vars c1))) eqn:H1.
      2:{ exfalso. unfold default_model, collect_canonical in Hrun.
          rewrite (bind_None _ _ _
                     (collect_canonical_None c1 c2 0 _ ([], []) w
                        (or_introl H1))) in Hrun.
          by destruct Hrun. }
      destruct (mapM (canonical_term c2) (seq 0 (get_num_vars c1))) eqn:H2.
      2:{ exfalso. unfold default_model, collect_canonical in Hrun.
          rewrite (bind_None _ _ _
                     (collect_canonical_None c1 c2 0 _ ([], []) w
                        (or_intror H2))) in Hrun.
          by destruct Hrun. }
      split; by eexists. }
    destruct H12 as [H1 H2].
    rewrite mapM_is_Some, Forall_seq in H1, H2. intros i Hi.
    destruct (proj1 (canonical_term_is_Some c1 i) (H1 i ltac:(lia)))
      as (r1 & ? & ?).
    destruct (proj1 (canonical_term_is_Some c2 i) (H2 i ltac:(lia)))
      as (r2 & ? & ?).
    by exists r1, r2.
  - intros H.
    assert (is_Some (mapM (canonical_term c1) (seq 0 (get_num_vars c1))))
      as [vterms1 H1].
    { apply mapM_is_Some, Forall_seq. intros i [_ Hi].
      apply canonical_term_is_Some.
      destruct (H i Hi) as (r1 & r2 & ? & ? & _). eauto. }
    assert (is_Some (mapM (canonical_term c2) (seq 0 (get_num_vars c1))))
      as [vterms2 H2].
    { apply mapM_is_Some, Forall_seq. intros i [_ Hi].
      apply canonical_term_is_Some.
      destruct (H i Hi) as (r1 & r2 & _ & _ & ? & ?). eauto. }
    destruct (pair_lines_exist toString c1 c2 vterms1 vterms2
                (model s vterms1) (model s vterms2) H1 H2) as [lines Hl].
    by rewrite (default_model_run_any special c1 c2 s fname w
                  vterms1 vterms2 lines H1 H2 Hl).
Qed.

Lemma default_model_in_range_aux special c1 c2 s fname w :
  is_Some (default_model toString special c1 c2 s fname w) →
  ∃ vterms1 vterms2 lines,
    mapM (canonical_term c1) (seq 0 (get_num_vars c1)) = Some vterms1
    ∧ mapM (canonical_term c2) (seq 0 (get_num_vars c1)) = Some vterms2
    ∧ mapM (pair_line_at toString c1 vterms1 vterms2
              (model s vterms1) (model s vterms2))
           (seq 0 (get_num_vars c1)) = Some lines.
Proof.
  intros Hrun.
  destruct (mapM (canonical_term c1) (seq 0 (get_num_vars c1)))
    as [vterms1|] eqn:H1.
  2:{ exfalso. unfold default_model, collect_canonical in Hrun.
      rewrite (bind_None _ _ _
                 (collect_canonical_None c1 c2 0 _ ([], []) w
                    (or_introl H1))) in Hrun.
      by destruct Hrun. }
  destruct (mapM (canonical_term c2) (seq 0 (get_num_vars c1)))
    as [vterms2|] eqn:H2.
  2:{ exfalso. unfold default_model, collect_canonical in Hrun.
      rewrite (bind_None _ _ _
                 (collect_canonical_None c1 c2 0 _ ([], []) w
                    (or_intror H2))) in Hrun.
      by destruct Hrun. }
  destruct (pair_lines_exist toString c1 c2 vterms1 vterms2
              (model s vterms1) (model s vterms2) H1 H2) as [lines Hl].
  by exists vterms1, vterms2, lines.
Qed.

(** A run that succeeds writes the listing, when the file can be opened,
    and the report of the run lemmas, whatever the world it starts from. *)
Lemma default_model_effect special c1 c2 s fname w :
  is_Some (default_model toString special c1 c2 s fname w) →
  ∃ lines,
    length lines = get_num_vars c1 ∧
    ∀ w0, default_model toString special c1 c2 s fname w0
          = Some (tt, mkWorld
              (if writable w0 fname
               then <[fname := Str.cat (["w12 = {"; Str.endl] ++ lines
                                          ++ ["};"])]> (files w0)
               else files w0)
              (info_log w0 ++
               ((λ vname : string,
                   let mmap := model_named s (named_terms_pair special c1 c2) in
                   [vname; "_1, "; vname; "_2 = ";
                    subscript mmap (vname +:+ "_1"); ", ";
                    subscript mmap (vname +:+ "_2")]) <$> special))
              (writable w0)).
Proof.
  intros (vterms1 & vterms2 & lines & H1 & H2 & Hl)%default_model_in_range_aux.
  exists lines. split; [by apply mapM_seq_lookup in Hl as [? _]|].
  intros w0. by apply default_model_run_any with vterms1 vterms2.
Qed.

Lemma default_model_single_effect special c s fname w :
  is_Some (default_model_single toString special c s fname w) →
  ∃ lines,
    length lines = get_num_vars c ∧
    ∀ w0, default_model_single toString special c s fname w0
          = Some (tt, mkWorld
              (if writable w0 fname
               then <[fname := Str.cat (["w = {"; Str.endl] ++ lines
                                          ++ ["};"])]> (files w0)
               else files w0)
              (info_log w0 ++
               ((λ vname : string,
                   let mmap1 := model_named s (named_terms_single special c) in
                   [vname; " = "; subscript mmap1 vname]) <$> special))
              (writable w0)).
Proof.
  intros [Hsv Hrvi]%default_model_single_in_range_aux.
  destruct (proj2 (mapM_lookup_is_Some (symbolic_vars c) _) Hsv)
    as [vterms H1].
  destruct (single_lines_exist toString c vterms (model s vterms) H1 Hrvi)
    as [lines H2].
  exists lines. split; [by apply mapM_seq_lookup in H2 as [? _]|].
  intros w0. by apply default_model_single_run_any with vterms.
Qed.

(** X3. On a circuit without variables both dumps succeed, whatever the
    vectors hold; when the file can be opened it is the header line
    followed by [};], and otherwise the files are as before. *)
Theorem dump_empty_circuit :
  (∀ special c1 c2 s fname w,
     get_num_vars c1 = 0 →
     ∃ w', default_model toString special c1 c2 s fname w = Some (tt, w') ∧
           files w' =
             if writable w fname
             then <[fname := Str.cat ["w12 = {"; Str.endl; "};"]]> (files w)
             else files w)
  ∧ (∀ special c s fname w,
       get_num_vars c = 0 →
       ∃ w', default_model_single toString special c s fname w
               = Some (tt, w') ∧
             files w' =
               if writable w fname
               then <[fname := Str.cat ["w = {"; Str.endl; "};"]]> (files w)
               else files w).
Proof.
  split.
  - intros special c1 c2 s fname w Hn. eexists. split.
    + apply (default_model_run_any special c1 c2 s fname w [] [] []);
        by rewrite Hn.
    + reflexivity.
  - intros special c s fname w Hn. eexists. split.
    + apply (default_model_single_run_any special c s fname w [] []);
        by rewrite Hn.
    + reflexivity.
Qed.

(** X4. A dump replaces the file: running the same dump again on the
    result succeeds, leaves the files as they are and makes the same
    [info] calls once more. *)
Theorem dump_twice :
  (∀ special c1 c2 s fname w w1,
     default_model toString special c1 c2 s fname w = Some (tt, w1) →
     ∃ w2, default_model toString special c1 c2 s fname w1 = Some (tt, w2) ∧
           files w2 = files w1 ∧
           info_log w2
             = info_log w1 ++ drop (length (info_log w)) (info_log w1))
  ∧ (∀ special c s fname w w1,
       default_model_single toString special c s fname w = Some (tt, w1) →
       ∃ w2, default_model_single toString special c s fname w1
               = Some (tt, w2) ∧
             files w2 = files w1 ∧
             info_log w2
               = info_log w1 ++ drop (length (info_log w)) (info_log w1)).
Proof.
  split.
  - intros special c1 c2 s fname w w1 Hrun.
    destruct (default_model_effect special c1 c2 s fname w) as (lines & _ & H);
      [by rewrite Hrun|].
    rewrite H in Hrun. injection Hrun as <-. eexists. split; [apply H|].
    simpl. destruct (writable w fname);
      by rewrite ?insert_insert_eq, drop_app_length.
  - intros special c s fname w w1 Hrun.
    destruct (default_model_single_effect special c s fname w)
      as (lines & _ & H); [by rewrite Hrun|].
    rewrite H in Hrun. injection Hrun as <-. eexists. split; [apply H|].
    simpl. destruct (writable w fname);
      by rewrite ?insert_insert_eq, drop_app_length.
Qed.

(** X5. When both dumps write to the same file the later one wins: after
    [default_model] the single-circuit dump leaves the files it leaves on
    its own, and the other way round. *)
Theorem later_dump_wins special1 c1 c2 s1 special2 c s2 fname w w1 w2 :
  default_model toString special1 c1 c2 s1 fname w = Some (tt, w1) →
  default_model_single toString special2 c s2 fname w = Some (tt, w2) →
  ∃ w12 w21,
    default_model_single toString special2 c s2 fname w1 = Some (tt, w12)
    ∧ files w12 = files w2
    ∧ default_model toString special1 c1 c2 s1 fname w2 = Some (tt, w21)
    ∧ files w21 = files w1.
Proof.
  intros Hpair Hsingle.
  destruct (default_model_effect special1 c1 c2 s1 fname w)
    as (lines1 & _ & H1); [by rewrite Hpair|].
  destruct (default_model_single_effect special2 c s2 fname w)
    as (lines2 & _ & H2); [by rewrite Hsingle|].
  rewrite H1 in Hpair. rewrite H2 in Hsingle.
  injection Hpair as <-. injection Hsingle as <-.
  eexists _, _. split; [apply H2|].
  split; [simpl; destruct (writable w fname); by rewrite ?insert_insert_eq|].
  split; [apply H1|].
  simpl. destruct (writable w fname); by rewrite ?insert_insert_eq.
Qed.

(** X6. The listing depends on neither [special], nor the circuits'
    [operator[]], nor the solver's model of named terms: changing them
    leaves the dump defined and the files the same. *)
Theorem listing_ignores_special :
  (∀ special special' c1 c2 by_name1 by_name2 s model_named' fname w w1,
     default_model toString special c1 c2 s fname w = Some (tt, w1) →
     ∃ w1',
       default_model toString special'
         (mkCircuit (get_num_vars c1) (symbolic_vars c1)
            (real_variable_index c1) by_name1)
         (mkCircuit (get_num_vars c2) (symbolic_vars c2)
            (real_variable_index c2) by_name2)
         (mkSolver (model s) model_named') fname w = Some (tt, w1')
       ∧ files w1' = files w1)
  ∧ (∀ special special' c by_name' s model_named' fname w w1,
       default_model_single toString special c s fname w = Some (tt, w1) →
       ∃ w1',
         default_model_single toString special'
           (mkCircuit (get_num_vars c) (symbolic_vars c)
              (real_variable_index c) by_name')
           (mkSolver (model s) model_named') fname w = Some (tt, w1')
         ∧ files w1' = files w1).
Proof.
  split.
  - intros special special' c1 c2 bn1 bn2 s named' fname w w1 Hrun.
    assert (Hsome : is_Some (default_model toString special c1 c2 s fname w))
      by (by rewrite Hrun).
    apply default_model_in_range_aux in Hsome
      as (vterms1 & vterms2 & lines & H1 & H2 & Hl).
    rewrite (default_model_run_any special c1 c2 s fname w
               vterms1 vterms2 lines H1 H2 Hl) in Hrun.
    injection Hrun as <-. eexists.
    split;
      [by apply (default_model_run_any special' _ _ _ fname w
                   vterms1 vterms2 lines) | done].
  - intros special special' c bn s named' fname w w1 Hrun.
    assert (Hsome : is_Some (default_model_single toString special c s fname w))
      by (by rewrite Hrun).
    apply default_model_single_in_range_aux in Hsome as [Hsv Hrvi].
    destruct (proj2 (mapM_lookup_is_Some (symbolic_vars c) _) Hsv)
      as [vterms H1].
    destruct (single_lines_exist toString c vterms (model s vterms) H1 Hrvi)
      as [lines H2].
    rewrite (default_model_single_run_any special c s fname w
               vterms lines H1 H2) in Hrun.
    injection Hrun as <-. eexists.
    split;
      [by apply (default_model_single_run_any special' _ _ fname w
                   vterms lines) | done].
Qed.

(** X7. A dump that succeeds makes one [info] call per name of [special],
    in order, after the calls made before: [default_model] with the name,
    [_1, ], the name, [_2 = ] and the two values the named model has under
    the keys [name_1] and [name_2]; [default_model_single] with the name,
    [ = ] and the value under the name. *)
Theorem dump_info_calls :
  (∀ special c1 c2 s fname w w',
     default_model toString special c1 c2 s fname w = Some (tt, w') →
     info_log w'
     = info_log w ++
       ((λ vname : string,
           [vname; "_1, "; vname; "_2 = ";
            subscript (model_named s (named_terms_pair special c1 c2))
              (vname +:+ "_1");
            ", ";
            subscript (model_named s (named_terms_pair special c1 c2))
              (vname +:+ "_2")]) <$> special))
  ∧ (∀ special c s fname w w',
       default_model_single toString special c s fname w = Some (tt, w') →
       info_log w'
       = info_log w ++
         ((λ vname : string,
             [vname; " = ";
              subscript (model_named s (named_terms_single special c)) vname])
            <$> special)).
Proof.
  split.
  - intros special c1 c2 s fname w w' Hrun.
    destruct (default_model_effect special c1 c2 s fname w) as (lines & _ & H);
      [by rewrite Hrun|].
    rewrite H in Hrun. by injection Hrun as <-.
  - intros special c s fname w w' Hrun.
    destruct (default_model_single_effect special c s fname w)
      as (lines & _ & H); [by rewrite Hrun|].
    rewrite H in Hrun. by injection Hrun as <-.
Qed.

Lemma named_terms_single_from (special : list string) c
    (acc : gmap string Term) (k : string) :
  fold_left (λ vterms1 vname, insert_new vname (by_name c vname) vterms1)
    special acc !! k
  = match acc !! k with
    | Some t => Some t
    | None => if decide (k ∈ special) then Some (by_name c k) else None
    end.
Proof.
  revert acc. induction special as [|v special IH]; intros acc; simpl.
  - destruct (acc !! k); [done|].
    destruct (decide (k ∈ [])) as [[]%elem_of_nil|]; done.
  - rewrite IH, insert_new_lookup. destruct (acc !! k) as [t|]; [done|].
    destruct (decide (k = v)) as [->|Hne].
    + destruct (decide (v ∈ v :: special)) as [|[]]; [done|].
      apply list_elem_of_here.
    + destruct (decide (k ∈ special)) as [Hin|Hnin],
        (decide (k ∈ v :: special)) as [Hin'|Hnin']; try done.
      * destruct Hnin'. by apply list_elem_of_further.
      * by apply elem_of_cons in Hin' as [?|?].
Qed.

(** X8. The map [default_model_single] hands to the solver has exactly
    the names of [special] as keys, each bound to the circuit's term of
    that name; a name that occurs twice changes nothing. *)
Theorem named_terms_single_lookup (special : list string) c (k : string) :
  named_terms_single special c !! k
  = if decide (k ∈ special) then Some (by_name c k) else None.
Proof.
  unfold named_terms_single. by rewrite named_terms_single_from, lookup_empty.
Qed.

Lemma named_terms_pair_from (special : list string) c1 c2
    (acc : gmap string Term) (k : string) (t : Term) :
  fold_left (λ vterms vname,
               insert_new (vname +:+ "_2") (by_name c2 vname)
                 (insert_new (vname +:+ "_1") (by_name c1 vname) vterms))
    special acc !! k = Some t
  ↔ acc !! k = Some t
    ∨ (acc !! k = None
       ∧ ∃ vname, vname ∈ special
           ∧ ((k = vname +:+ "_1" ∧ t = by_name c1 vname)
              ∨ (k = vname +:+ "_2" ∧ t = by_name c2 vname))).
Proof.
  revert acc. induction special as [|v special IH]; intros acc; simpl.
  - split; [by left|]. intros [?|(_ & vname & []%elem_of_nil & _)]. done.
  - rewrite IH, !insert_new_lookup. clear IH.
    destruct (acc !! k) as [t'|] eqn:Hacc.
    { split; [intros [?|[? _]]; [by left | done] | intros [?|[? _]]; [by left|done]]. }
    destruct (decide (k = v +:+ "_1")) as [->|Hne1].
    { destruct (decide (v +:+ "_1" = v +:+ "_2")) as [H|_].
      { by apply str_app_inj_len in H as [_ ?]. }
      split.
      - intros [[= <-]|[? _]]; [|done]. right. split; [done|].
        exists v. split; [apply list_elem_of_here | by left].
      - intros [?|(_ & vname & Hin & [[H ->]|[H _]])]; [done| |].
        + left. by apply str_app_inj_len in H as [-> _].
        + by apply str_app_inj_len in H as [_ ?]. }
    destruct (decide (k = v +:+ "_2")) as [->|Hne2].
    { split.
      - intros [[= <-]|[? _]]; [|done]. right. split; [done|].
        exists v. split; [apply list_elem_of_here | by right].
      - intros [?|(_ & vname & Hin & [[H _]|[H ->]])]; [done| |].
        + by apply str_app_inj_len in H as [_ ?].
        + left. by apply str_app_inj_len in H as [-> _]. }
    split.
    + intros [?|(_ & vname & Hin & Hk)]; [done|]. right. split; [done|].
      exists vname. split; [by apply list_elem_of_further | done].
    + intros [?|(_ & vname & Hin & Hk)]; [done|]. right. split; [done|].
      exists vname. split; [|done].
      apply elem_of_cons in Hin as [->|?]; [|done].
      destruct Hk as [[? _]|[? _]]; done.
Qed.

(** X9. The map [default_model] hands to the solver binds, for every name
    of [special], the key [name_1] to the first circuit's term of that name
    and [name_2] to the second circuit's, and has no other key: the keys of
    two names, or of the two circuits, never collide. *)
Theorem named_terms_pair_lookup (special : list string) c1 c2
    (k : string) (t : Term) :
  named_terms_pair special c1 c2 !! k = Some t
  ↔ ∃ vname, vname ∈ special
      ∧ ((k = vname +:+ "_1" ∧ t = by_name c1 vname)
         ∨ (k = vname +:+ "_2" ∧ t = by_name c2 vname)).
Proof.
  unfold named_terms_pair. rewrite named_terms_pair_from, lookup_empty.
  split; [by intros [?|[_ ?]] | by right].
Qed.

Lemma single_lines_inj c c' vterms mmap start count lines lines' :
  mapM (single_line_at toString c vterms mmap) (seq start count) = Some lines →
  mapM (single_line_at toString c' vterms mmap) (seq start count)
    = Some lines' →
  Str.cat lines = Str.cat lines' →
  ∀ i, start ≤ i < start + count →
    real_variable_index c !! i = real_variable_index c' !! i.
Proof.
  revert start lines lines'.
  induction count as [|count IH]; intros start lines lines' Hl Hl' Hcat i Hi;
    [lia|].
  apply mapM_cons_Some in Hl as (l & k & Hline & Hk & ->).
  apply mapM_cons_Some in Hl' as (l' & k' & Hline' & Hk' & ->).
  unfold single_line_at in Hline, Hline'.
  destruct (vterms !! start) as [t|]; [|done].
  destruct (real_variable_index c !! start) as [r|] eqn:Hr; [|done].
  destruct (real_variable_index c' !! start) as [r'|] eqn:Hr'; [|done].
  simpl in Hline, Hline'. injection Hline as <-. injection Hline' as <-.
  unfold single_line in Hcat. rewrite !cat_cons, !cat_app in Hcat.
  rewrite !str_app_assoc in Hcat.
  rewrite !cat_cons, !str_app_assoc in Hcat.
  do 3 apply String.app_inj in Hcat.
  rewrite !cat_nil, !str_app_nil_l in Hcat.
  apply alias_suffix_inj in Hcat as [-> Hcat].
  destruct (decide (i = start)) as [->|Hne]; [congruence|].
  apply (IH (S start) k k' Hk Hk' Hcat). lia.
Qed.

(** X10. The alias map can be read back from the single-circuit listing:
    two circuits with the same variables whose dumps, made with the same
    solver to files that can be opened, leave the same text have the same
    canonical index for every dumped variable. *)
Theorem single_listing_determines_aliases
    special special' c c' s fname fname' w w' w1 w2 :
  writable w fname = true →
  writable w' fname' = true →
  get_num_vars c = get_num_vars c' →
  symbolic_vars c = symbolic_vars c' →
  default_model_single toString special c s fname w = Some (tt, w1) →
  default_model_single toString special' c' s fname' w' = Some (tt, w2) →
  files w1 !! fname = files w2 !! fname' →
  ∀ i, i < get_num_vars c →
    real_variable_index c !! i = real_variable_index c' !! i.
Proof.
  intros Hw Hw' Hn Hsv Hrun Hrun' Hfiles.
  assert (Hsome : is_Some (default_model_single toString special c s fname w))
    by (by rewrite Hrun).
  assert (Hsome' : is_Some (default_model_single toString special' c' s
                              fname' w')) by (by rewrite Hrun').
  apply default_model_single_in_range_aux in Hsome as [Hlen Hrvi].
  apply default_model_single_in_range_aux in Hsome' as [Hlen' Hrvi'].
  destruct (proj2 (mapM_lookup_is_Some (symbolic_vars c) _) Hlen)
    as [vterms H1].
  assert (H1' : mapM (λ i, symbolic_vars c' !! i) (seq 0 (get_num_vars c'))
                = Some vterms) by (by rewrite <- Hn, <- Hsv).
  destruct (single_lines_exist toString c vterms (model s vterms) H1 Hrvi)
    as [lines H2].
  destruct (single_lines_exist toString c' vterms (model s vterms) H1' Hrvi')
    as [lines' H2'].
  rewrite (default_model_single_run toString special c s fname w
             vterms lines Hw H1 H2) in Hrun.
  rewrite (default_model_single_run toString special' c' s fname' w'
             vterms lines' Hw' H1' H2') in Hrun'.
  injection Hrun as <-. injection Hrun' as <-. simpl in Hfiles.
  rewrite !lookup_insert_eq in Hfiles. injection Hfiles as Hcat.
  rewrite !cat_app in Hcat. apply String.app_inj in Hcat.
  apply (str_app_inj_len _ _ _ _ eq_refl) in Hcat as [Hcat _].
  intros i Hi. rewrite <- Hn in H2'.
  apply (single_lines_inj c c' vterms (model s vterms) 0 _ lines lines'
           H2 H2' Hcat). lia.
Qed.

(** X13. The open of the file is never tested. A dump changes no file
    other than [fname], and which names can be opened stays as it was; when
    [fname] cannot be opened the dump changes no file at all and makes its
    [info] calls all the same. *)
Theorem dump_unopened_file :
  (∀ special c1 c2 s fname w w',
     default_model toString special c1 c2 s fname w = Some (tt, w') →
     writable w' = writable w
     ∧ (∀ f, f ≠ fname → files w' !! f = files w !! f)
     ∧ (writable w fname = false →
        files w' = files w
        ∧ info_log w'
          = info_log w ++
            ((λ vname : string,
                [vname; "_1, "; vname; "_2 = ";
                 subscript (model_named s (named_terms_pair special c1 c2))
                   (vname +:+ "_1");
                 ", ";
                 subscript (model_named s (named_terms_pair special c1 c2))
                   (vname +:+ "_2")]) <$> special)))
  ∧ (∀ special c s fname w w',
       default_model_single toString special c s fname w = Some (tt, w') →
       writable w' = writable w
       ∧ (∀ f, f ≠ fname → files w' !! f = files w !! f)
       ∧ (writable w fname = false →
          files w' = files w
          ∧ info_log w'
            = info_log w ++
              ((λ vname : string,
                  [vname; " = ";
                   subscript (model_named s (named_terms_single special c))
                     vname]) <$> special))).
Proof.
  split.
  - intros special c1 c2 s fname w w' Hrun.
    destruct (default_model_effect special c1 c2 s fname w) as (lines & _ & H);
      [by rewrite Hrun|].
    rewrite H in Hrun. injection Hrun as <-. simpl.
    split; [done|]. split.
    + intros f Hf. destruct (writable w fname); [|done].
      by rewrite lookup_insert_ne.
    + by intros ->.
  - intros special c s fname w w' Hrun.
    destruct (default_model_single_effect special c s fname w)
      as (lines & _ & H); [by rewrite Hrun|].
    rewrite H in Hrun. injection Hrun as <-. simpl.
    split; [done|]. split.
    + intros f Hf. destruct (writable w fname); [|done].
      by rewrite lookup_insert_ne.
    + by intros ->.
Qed.

(** X14. A dump uses the solver through the models it asks for and
    nothing else: the two models of the collected terms and the model of
    the named terms for [default_model], the model of the collected terms
    and the model of the named terms for [default_model_single]. Two
    solvers that agree on these give the same file and the same [info]
    calls. *)
Theorem dump_uses_queried_models :
  (∀ special c1 c2 s s' fname w vterms1 vterms2,
     mapM (canonical_term c1) (seq 0 (get_num_vars c1)) = Some vterms1 →
     mapM (canonical_term c2) (seq 0 (get_num_vars c1)) = Some vterms2 →
     model s vterms1 = model s' vterms1 →
     model s vterms2 = model s' vterms2 →
     model_named s (named_terms_pair special c1 c2)
       = model_named s' (named_terms_pair special c1 c2) →
     default_model toString special c1 c2 s fname w
     = default_model toString special c1 c2 s' fname w)
  ∧ (∀ special c s s' fname w vterms,
       mapM (λ i, symbolic_vars c !! i) (seq 0 (get_num_vars c))
         = Some vterms →
       model s vterms = model s' vterms →
       model_named s (named_terms_single special c)
         = model_named s' (named_terms_single special c) →
       default_model_single toString special c s fname w
       = default_model_single toString special c s' fname w).
Proof.
  split.
  - intros special c1 c2 s s' fname w vterms1 vterms2 H1 H2 Hm1 Hm2 Hn.
    destruct (pair_lines_exist toString c1 c2 vterms1 vterms2
                (model s vterms1) (model s vterms2) H1 H2) as [lines Hl].
    rewrite (default_model_run_any special c1 c2 s fname w
               vterms1 vterms2 lines H1 H2 Hl).
    rewrite (default_model_run_any special c1 c2 s' fname w
               vterms1 vterms2 lines H1 H2) by (by rewrite <- Hm1, <- Hm2).
    by rewrite Hn.
  - intros special c s s' fname w vterms H1 Hm Hn.
    destruct (mapM (single_line_at toString c vterms (model s vterms))
                (seq 0 (get_num_vars c))) as [lines|] eqn:Hl.
    + rewrite (default_model_single_run_any special c s fname w
                 vterms lines H1 Hl).
      rewrite (default_model_single_run_any special c s' fname w
                 vterms lines H1) by (by rewrite <- Hm).
      by rewrite Hn.
    + assert (Hnone : ∀ s0, model s0 vterms = model s vterms →
                default_model_single toString special c s0 fname w = None).
      { intros s0 Hs0. rewrite <- Hs0 in Hl.
        unfold default_model_single, collect_all.
        rewrite (bind_Some _ _ _ _ _ (collect_all_from c 0 _ [] _ w H1)).
        simpl app.
        apply open_then_None. intros myfile w1. apply put_then_None.
        intros w2. apply bind_None.
        eapply put_lines_from_None; [| |exact Hl].
        * intros i l w0. apply put_single_line_run.
        * intros i w0. apply put_single_line_None. }
      by rewrite (Hnone s), (Hnone s').
Qed.

End Dump.

(** The sample circuit, taken twice or alone, is dumped without failure. *)
Lemma sample_pair_runs :
  ∃ w1, default_model id ["x"] Sample.circuit Sample.circuit Sample.solver
          "witness.out" Sample.world = Some (tt, w1).
Proof.
  eexists. by eapply (default_model_run id ["x"] Sample.circuit Sample.circuit
                        Sample.solver).
Qed.

Lemma sample_single_runs :
  ∃ w1, default_model_single id ["x"] Sample.circuit Sample.solver
          "witness.out" Sample.world = Some (tt, w1).
Proof.
  eexists. by eapply (default_model_single_run id ["x"] Sample.circuit
                        Sample.solver).
Qed.

Lemma dump_empty_circuit_witness :
  (∃ w', default_model id [] (mkCircuit 0 [] [] (λ name, name))
           Sample.circuit Sample.solver "witness.out" Sample.world
         = Some (tt, w') ∧
         files w' = <["witness.out" := Str.cat ["w12 = {"; Str.endl; "};"]]> ∅)
  ∧ (∃ w', default_model_single id [] (mkCircuit 0 [] [] (λ name, name))
             Sample.solver "" Sample.strict_world = Some (tt, w') ∧
           files w' = ∅).
Proof.
  split.
  - exact (proj1 (dump_empty_circuit id) [] (mkCircuit 0 [] [] (λ name, name))
             Sample.circuit Sample.solver "witness.out" Sample.world eq_refl).
  - exact (proj2 (dump_empty_circuit id) [] (mkCircuit 0 [] [] (λ name, name))
             Sample.solver "" Sample.strict_world eq_refl).
Defined.

Lemma dump_twice_witness :
  ∃ w1 w2,
    default_model id ["x"] Sample.circuit Sample.circuit Sample.solver
      "witness.out" Sample.world = Some (tt, w1)
    ∧ default_model id ["x"] Sample.circuit Sample.circuit Sample.solver
        "witness.out" w1 = Some (tt, w2)
    ∧ files w2 = files w1.
Proof.
  destruct sample_pair_runs as [w1 Hrun].
  destruct (proj1 (dump_twice id) ["x"] Sample.circuit Sample.circuit
              Sample.solver "witness.out" Sample.world w1 Hrun)
    as (w2 & Hrun2 & Hfiles & _).
  by exists w1, w2.
Defined.

Lemma later_dump_wins_witness :
  ∃ w1 w2 w12,
    default_model id ["x"] Sample.circuit Sample.circuit Sample.solver
      "witness.out" Sample.world = Some (tt, w1)
    ∧ default_model_single id ["x"] Sample.circuit Sample.solver
        "witness.out" Sample.world = Some (tt, w2)
    ∧ default_model_single id ["x"] Sample.circuit Sample.solver
        "witness.out" w1 = Some (tt, w12)
    ∧ files w12 = files w2.
Proof.
  destruct sample_pair_runs as [w1 Hrun1], sample_single_runs as [w2 Hrun2].
  destruct (later_dump_wins id ["x"] Sample.circuit Sample.circuit
              Sample.solver ["x"] Sample.circuit Sample.solver "witness.out"
              Sample.world w1 w2 Hrun1 Hrun2)
    as (w12 & w21 & H12 & Hf12 & _).
  by exists w1, w2, w12.
Defined.

Lemma listing_ignores_special_witness :
  ∃ w1 w1',
    default_model_single id ["x"] Sample.circuit Sample.solver
      "witness.out" Sample.world = Some (tt, w1)
    ∧ default_model_single id ["y"; "z"]
        (mkCircuit 3 ["x"; "y"; "z"] [0; 0; 2] (λ _, "z"))
        (mkSolver (model Sample.solver) (λ _, ∅))
        "witness.out" Sample.world = Some (tt, w1')
    ∧ files w1' = files w1.
Proof.
  destruct sample_single_runs as [w1 Hrun].
  destruct (proj2 (listing_ignores_special id) ["x"] ["y"; "z"] Sample.circuit
              (λ _, "z") Sample.solver (λ _, ∅) "witness.out" Sample.world
              w1 Hrun) as (w1' & Hrun' & Hfiles).
  by exists w1, w1'.
Defined.

Lemma dump_info_calls_witness :
  ∃ w',
    default_model_single id ["x"] Sample.circuit Sample.solver
      "witness.out" Sample.world = Some (tt, w')
    ∧ info_log w'
      = [["x"; " = ";
          subscript (model_named Sample.solver
                       (named_terms_single ["x"] Sample.circuit)) "x"]].
Proof.
  destruct sample_single_runs as [w' Hrun]. exists w'. split; [done|].
  exact (proj2 (dump_info_calls id) ["x"] Sample.circuit Sample.solver
           "witness.out" Sample.world w' Hrun).
Defined.

Lemma single_listing_determines_aliases_witness :
  writable Sample.world "witness.out" = true ∧
  writable Sample.world "copy.out" = true ∧
  ∃ w1 w2,
    default_model_single id ["x"] Sample.circuit Sample.solver
      "witness.out" Sample.world = Some (tt, w1)
    ∧ default_model_single id []
        (mkCircuit 3 ["x"; "y"; "z"] [0; 0; 2; 5] (λ _, "z"))
        Sample.solver "copy.out" Sample.world = Some (tt, w2)
    ∧ files w1 !! "witness.out" = files w2 !! "copy.out"
    ∧ ∀ i, i < 3 →
        real_variable_index Sample.circuit !! i = [0; 0; 2; 5] !! i.
Proof.
  do 2 (split; [reflexivity|]).
  destruct sample_single_runs as [w1 Hrun1].
  assert (∃ w2, default_model_single id []
                  (mkCircuit 3 ["x"; "y"; "z"] [0; 0; 2; 5] (λ _, "z"))
                  Sample.solver "copy.out" Sample.world = Some (tt, w2)
                ∧ files w1 !! "witness.out" = files w2 !! "copy.out")
    as (w2 & Hrun2 & Hfiles).
  { eexists. split.
    - by eapply (default_model_single_run id []
                   (mkCircuit 3 ["x"; "y"; "z"] [0; 0; 2; 5] (λ _, "z"))
                   Sample.solver).
    - rewrite (default_model_single_run id ["x"] Sample.circuit Sample.solver
                 "witness.out" Sample.world _ _ eq_refl eq_refl eq_refl)
        in Hrun1.
      injection Hrun1 as <-. simpl. by rewrite !lookup_insert_eq. }
  exists w1, w2. do 3 (split; [done|]).
  exact (single_listing_determines_aliases id ["x"] [] Sample.circuit
           (mkCircuit 3 ["x"; "y"; "z"] [0; 0; 2; 5] (λ _, "z"))
           Sample.solver "witness.out" "copy.out" Sample.world Sample.world
           w1 w2 eq_refl eq_refl eq_refl eq_refl Hrun1 Hrun2 Hfiles).
Defined.

Lemma dump_unopened_file_witness :
  ∃ w',
    default_model_single id ["x"] Sample.circuit Sample.solver ""
      Sample.strict_world = Some (tt, w')
    ∧ writable Sample.strict_world "" = false
    ∧ files w' = ∅
    ∧ info_log w' = [["x"; " = "; "val_x"]].
Proof.
  assert (Hrun : ∃ w', default_model_single id ["x"] Sample.circuit
                         Sample.solver "" Sample.strict_world = Some (tt, w')).
  { eexists. by eapply (default_model_single_run_closed id ["x"]
                          Sample.circuit Sample.solver). }
  destruct Hrun as [w' Hrun]. exists w'. do 2 (split; [done|]).
  destruct (proj2 (dump_unopened_file id) ["x"] Sample.circuit Sample.solver
              "" Sample.strict_world w' Hrun) as (_ & _ & Hclosed).
  destruct (Hclosed eq_refl) as [Hfiles Hinfo]. split; [done|].
  rewrite Hinfo. by vm_compute.
Defined.

Lemma dump_uses_queried_models_witness :
  model Sample.solver ["x"] ≠ model Sample.partial_solver ["x"]
  ∧ mapM (canonical_term Sample.circuit) (seq 0 3) = Some ["x"; "x"; "z"]
  ∧ model Sample.solver ["x"; "x"; "z"]
    = model Sample.partial_solver ["x"; "x"; "z"]
  ∧ default_model id ["x"] Sample.circuit Sample.circuit Sample.solver
      "witness.out" Sample.world
    = default_model id ["x"] Sample.circuit Sample.circuit
        Sample.partial_solver "witness.out" Sample.world.
Proof.
  split; [by vm_compute|]. do 2 (split; [reflexivity|]).
  exact (proj1 (dump_uses_queried_models id) ["x"] Sample.circuit
           Sample.circuit Sample.solver Sample.partial_solver "witness.out"
           Sample.world ["x"; "x"; "z"] ["x"; "x"; "z"]
           eq_refl eq_refl eq_refl eq_refl eq_refl).
Defined.

End SmtUtilMore.

(** * Further properties of [lookups_bc_decomposition.hpp] *)

Module LookupsBcDecompositionMore.
Import LookupsBcDecomposition LookupsBcDecompositionFacts.

Lemma cong_one_iff (p a : Z) :
  (a mod p = 1 mod p)%Z ↔ (p | a - 1)%Z.
Proof.
  rewrite Z.cong_iff_ex. split; intros [k Hk]; exists k; lia.
Qed.

(** X11. Over a prime field [compute_inverse_exists] is one exactly when
    [inverse_polynomial_is_computed_at_row] holds, for all values of the
    two selectors and not only for 0 and 1. *)
Theorem compute_inverse_exists_one_iff (p : Z) (in_ : AllEntities Z) :
  Z.prime p →
  compute_inverse_exists p in_ = FF.one p
  ↔ inverse_polynomial_is_computed_at_row p in_ = true.
Proof.
  intros Hp. unfold compute_inverse_exists, inverse_polynomial_is_computed_at_row.
  generalize (in_ bc_decomposition_sel) (in_ precomputed_sel_unary).
  intros a b. rewrite sub_add_mul, orb_true_iff. unfold FF.eqb, FF.one, FF.of_Z.
  rewrite !bool_decide_eq_true, !Z.mod_mod by (destruct Hp; lia).
  rewrite !cong_one_iff.
  replace (a + b - a * b - 1)%Z with ((a - 1) * (1 - b))%Z by lia.
  rewrite Z.divide_prime_mul by done.
  assert ((p | 1 - b) ↔ (p | b - 1))%Z as ->; [|done].
  replace (1 - b)%Z with (- (b - 1))%Z by lia. apply Z.divide_opp_r.
Qed.

Lemma compute_inverse_exists_one_iff_witness :
  Z.prime 7
  ∧ (compute_inverse_exists 7 Sample.reading_row = FF.one 7
     ↔ inverse_polynomial_is_computed_at_row 7 Sample.reading_row = true).
Proof.
  split; [exact CircuitTestFacts.prime_7|].
  exact (compute_inverse_exists_one_iff 7 Sample.reading_row
           CircuitTestFacts.prime_7).
Defined.

End LookupsBcDecompositionMore.

(** * Further properties of [circuit.test.cpp] *)

Module CircuitTestMore.
Import Exec CircuitTest CircuitTestFacts.
Local Open Scope Z_scope.

(** X12. In [multiplicationFalse], under the model of the solver used
    above and over a prime field, every witness gives the reference value
    [cr] twice the value of the circuit's [c], and a nonzero [a]: the
    mistake is the missing factor 2, and it shows only when [a] is not
    zero. *)
Theorem mistake_is_factor_two p :
  Z.prime p →
  ∃ s terms a c cr,
    multiplicationFalse (new_solver p) = Some (terms, s)
    ∧ terms !! "a" = Some a ∧ terms !! "c" = Some c ∧ terms !! "cr" = Some cr
    ∧ ∀ env, witness s env →
        eval p env cr = FF.mul p (FF.of_Z p 2) (eval p env c)
        ∧ eval p env a ≠ FF.zero p.
Proof.
  intros Hp. assert (Hp0 : p ≠ 0) by (destruct Hp; lia).
  eexists _, _, (Var "a"), (Var "c"), (Var "div_0").
  split; [apply multiplicationFalse_run|].
  do 3 (split; [done|]).
  intros env H. unfold witness in H. simpl in H.
  apply Forall_cons in H as [Hden H]. apply Forall_cons in H as [Hc H].
  apply Forall_cons in H as [_ H]. apply Forall_cons in H as [Hcr H].
  apply Forall_cons in H as [Hne _]. unfold holds in *.
  rewrite !eval_evalZ in *. simpl in *.
  unfold FF.mul, FF.of_Z, FF.zero. rewrite <- Zmult_mod.
  assert (Hcr2 : env "div_0" mod p = (2 * env "c") mod p).
  { apply (quotient_unique p _ _ (env "b" + env "b" + env "b")
             (2 * env "a")); [done..| |].
    - rewrite <- Hcr. f_equal. lia.
    - replace (2 * env "c" * (env "b" + env "b" + env "b"))
        with (2 * (env "c" * (env "b" + env "b" + env "b"))) by lia.
      by rewrite Zmult_mod, Hc, <- Zmult_mod. }
  split; [done|]. unfold FF.of_Z. intros Ha.
  apply Hne. rewrite Hcr2.
  assert (Hc0 : env "c" mod p = 0 mod p).
  { apply (quotient_unique p _ _ (env "b" + env "b" + env "b") 0);
      [done..| |done].
    by rewrite Hc, Ha. }
  by rewrite Zmult_mod, Hc0, <- Zmult_mod, Z.mul_0_r.
Qed.

Lemma mistake_is_factor_two_witness :
  Z.prime 7
  ∧ ∃ s terms, multiplicationFalse (new_solver 7) = Some (terms, s)
      ∧ is_Some (terms !! "cr").
Proof.
  split; [exact prime_7|].
  destruct (mistake_is_factor_two 7 prime_7)
    as (s & terms & a & c & cr & Hrun & _ & _ & Hcr & _).
  exists s, terms. split; [done | by exists cr].
Defined.

End CircuitTestMore.
